(** * channels: the mixer, its channels and their volume controls

    A shallow embedding of [Channels.ts], [Channel.ts] and [VolumeNodes.ts].

    - Numbers are exact rationals ([Qc]); the [AudioParam] behind a gain node
      is taken to store the number it is given.
    - An object of the program is a record that carries its reference
      ([chan_ref], [ps_ref]); [===] on objects compares references.
    - A method is a function in a state monad in which a [throw] keeps the
      state reached so far, as an exception does in the program.
    - The thrown [Error] values are named after the kind of failure; the
      message of the source is quoted next to each. *)

From stdpp Require Import base option numbers list strings gmap.
From Stdlib Require Import QArith Qcanon.

Local Open Scope Qc_scope.

(** ** Exceptions over mutable state *)

Inductive Error : Type :=
  | InvalidArgument   (* 'Cannot set negative volume', 'Channel name cannot be blank' *)
  | DuplicateChannel  (* `Channel with name '${name}' already exists` *)
  | ChannelNotFound   (* `Channel '${channel}' does not exist` *)
  | SampleNotFound    (* `Cannot find sound: '${name}` *)
  | NotRegistered.    (* `Trying to remove a playing sound that is not listed: ...` *)

Inductive Outcome (A : Type) : Type :=
  | Return (a : A)
  | Throw (e : Error).
Arguments Return {A} a.
Arguments Throw {A} e.

Definition M (S A : Type) : Type := S -> Outcome A * S.

Definition ret {S A} (a : A) : M S A := fun s => (Return a, s).

Definition throw {S A} (e : Error) : M S A := fun s => (Throw e, s).

Definition bind {S A B} (c : M S A) (k : A -> M S B) : M S B :=
  fun s =>
    match c s with
    | (Return a, s') => k a s'
    | (Throw e, s') => (Throw e, s')
    end.

Definition gets {S A} (f : S -> A) : M S A := fun s => (Return (f s), s).

Definition modify {S} (f : S -> S) : M S unit := fun s => (Return tt, f s).

Notation "'let*' x := c 'in' k" := (bind c (fun x => k))
  (at level 10, x pattern, c at level 100, k at level 200).
Notation "c ;; k" := (bind c (fun _ => k))
  (at level 100, k at level 200, right associativity).

(** [Array.prototype.forEach] with a callback that may throw: the first
    exception ends the loop. *)
Fixpoint forEach {S A} (f : A -> M S unit) (l : list A) : M S unit :=
  match l with
  | [] => ret tt
  | x :: l' => f x ;; forEach f l'
  end.

(** ** VolumeNodes.ts *)

Module VolumeNodes.

(** What a listener of [VOLUME_CHANGE] reads from the target while the
    event is being dispatched (seng-event calls its listeners inside
    [dispatchEvent]). *)
Record VolumeChangeEvent : Type := {
  seen_volume : Qc;
  seen_volumeValueBeforeMute : option Qc;
}.

(** [volumeGain] and [fadeGain] are [volumeGainNode.gain.value] and
    [fadeGainNode.gain.value]; [eventDispatcher] is the sequence of events
    that this object has sent to its dispatcher, oldest first. *)
Record t : Type := {
  volumeGain : Qc;
  fadeGain : Qc;
  volumeValueBeforeMute : option Qc;
  eventDispatcher : list VolumeChangeEvent;
}.

Definition set_volumeGain (v : Qc) (s : t) : t :=
  {| volumeGain := v; fadeGain := fadeGain s;
     volumeValueBeforeMute := volumeValueBeforeMute s;
     eventDispatcher := eventDispatcher s |}.

Definition set_fadeGain (v : Qc) (s : t) : t :=
  {| volumeGain := volumeGain s; fadeGain := v;
     volumeValueBeforeMute := volumeValueBeforeMute s;
     eventDispatcher := eventDispatcher s |}.

Definition set_volumeValueBeforeMute (o : option Qc) (s : t) : t :=
  {| volumeGain := volumeGain s; fadeGain := fadeGain s;
     volumeValueBeforeMute := o;
     eventDispatcher := eventDispatcher s |}.

Definition getFadeVolume : M t Qc := gets fadeGain.

Definition getVolume : M t Qc := gets volumeGain.

Definition dispatchVolumeChange : M t unit :=
  modify (fun s =>
    {| volumeGain := volumeGain s; fadeGain := fadeGain s;
       volumeValueBeforeMute := volumeValueBeforeMute s;
       eventDispatcher :=
         eventDispatcher s ++
           [ {| seen_volume := volumeGain s;
                seen_volumeValueBeforeMute := volumeValueBeforeMute s |} ] |}).

Definition setVolume (value : Qc) : M t unit :=
  if decide (value < 0) then throw InvalidArgument
  else
    let* current := gets volumeGain in
    if decide (value = current) then ret tt
    else
      (if decide (value = 0)
       then modify (set_volumeValueBeforeMute (Some 1))
       else modify (set_volumeValueBeforeMute None)) ;;
      dispatchVolumeChange ;;
      modify (set_volumeGain value).

Definition mute : M t unit :=
  let* volume := getVolume in
  if decide (0 < volume) then
    modify (set_volumeValueBeforeMute (Some volume)) ;;
    modify (set_volumeGain 0) ;;
    dispatchVolumeChange
  else ret tt.

Definition unmute : M t unit :=
  let* volume := getVolume in
  if decide (volume = 0) then
    let* before := gets volumeValueBeforeMute in
    modify (set_volumeGain (default 1 before)) ;;
    dispatchVolumeChange
  else ret tt.

(** The two gain nodes as [audioContext.createGain()] makes them:
    [gain.value] is 1. *)
Definition created : t :=
  {| volumeGain := 1; fadeGain := 1;
     volumeValueBeforeMute := None; eventDispatcher := [] |}.

(** The constructor, with its defaults [volume = 1], [fadeVolume = 1]. *)
Definition construct (volume fadeVolume : option Qc) : Outcome unit * t :=
  (setVolume (default 1 volume) ;;
   modify (set_fadeGain (default 1 fadeVolume))) created.

(** Running the same method [n] times in a row. *)
Fixpoint repeatedly (n : nat) (c : M t unit) : M t unit :=
  match n with
  | O => ret tt
  | S n' => c ;; repeatedly n' c
  end.

(** *** Sequences of calls on one [VolumeNodes]

    A caller that catches what a call throws and goes on. *)
Inductive VolumeCall : Type :=
  | CallSetVolume (value : Qc)
  | CallMute
  | CallUnmute.

Definition volume_call (c : VolumeCall) : M t unit :=
  match c with
  | CallSetVolume value => setVolume value
  | CallMute => mute
  | CallUnmute => unmute
  end.

Definition volume_calls (cs : list VolumeCall) (s : t) : t :=
  foldl (fun s c => snd (volume_call c s)) s cs.

(** The object that the constructor leaves, whether it returns or throws,
    after the calls [cs]. *)
Definition after_calls (volume fadeVolume : option Qc) (cs : list VolumeCall) : t :=
  volume_calls cs (snd (construct volume fadeVolume)).

(** The volume is not negative, and a volume of 0 comes with a restore
    target above 0. *)
Definition volume_wf (s : t) : Prop :=
  0 <= volumeGain s /\
  (volumeGain s = 0 -> exists w, volumeValueBeforeMute s = Some w /\ 0 < w).

End VolumeNodes.

(** ** Channel.ts and Channels.ts *)

Module Channels.

Inductive ChannelType : Type := monophonic | polyphonic.

Record CreateChannelOptions : Type := {
  opt_type : option ChannelType;
  opt_volume : option Qc;
}.

(** A [Channel] object. [name] and [type] are read-only; [chan_volumeNodes]
    is the state of its [VolumeNodes] when the constructor returns. *)
Record Channel : Type := {
  chan_ref : nat;
  chan_name : string;
  chan_type : ChannelType;
  chan_volumeNodes : VolumeNodes.t;
}.

(** A sample of the sample manager (the sample-manager package). *)
Record Sample : Type := { sample_name : string }.

(** Modelled from the spec: the type [PlaySoundOptions] of PlayingSound.ts,
    "playback options (loop flag, optional scheduled fade-out duration)". *)
Record PlaySoundOptions : Type := {
  loop : bool;
  fadeOutTime : option Qc;
}.

(** Modelled from the spec: the fields of a [PlayingSound] of
    PlayingSound.ts, "reference to its Sample, optional reference to its
    Channel (absent => played directly on master), playback options". *)
Record PlayingSound : Type := {
  ps_ref : nat;
  ps_sound : Sample;
  ps_channel : option Channel;
  ps_options : PlaySoundOptions;
}.

(** The value of an [OptionalChannel['channel']] that is not [undefined]:
    the name of a channel or a channel. *)
Inductive ChannelSelector : Type :=
  | ByName (name : string)
  | ByInstance (c : Channel).

Inductive ChannelsEvent : Type :=
  | CHANNELS_UPDATED
  | PLAYING_SOUNDS_UPDATED
  | VOLUME_CHANGE (e : VolumeNodes.VolumeChangeEvent).

(** A [Channels] object. [channelsByName] holds the own properties of the
    record object (a name such as 'toString', which every object inherits,
    is not looked at here); [sampleManager] is what [getSampleByName]
    finds; [events] is what the object has dispatched, oldest first;
    [observed] is, for each of these events, what a listener reads from
    [getPlayingSounds()] while the event is being dispatched (seng-event
    calls its listeners inside [dispatchEvent]);
    [next_ref] is the reference the next [new] gives out. *)
Record Channels : Type := {
  channelsByName : gmap string Channel;
  playingSounds : list PlayingSound;
  sampleManager : gmap string Sample;
  volumeNodes : VolumeNodes.t;
  events : list ChannelsEvent;
  observed : list (list PlayingSound);
  next_ref : nat;
}.

Definition set_channelsByName (f : gmap string Channel -> gmap string Channel)
    (m : Channels) : Channels :=
  {| channelsByName := f (channelsByName m); playingSounds := playingSounds m;
     sampleManager := sampleManager m; volumeNodes := volumeNodes m;
     events := events m; observed := observed m;
     next_ref := next_ref m |}.

Definition set_playingSounds (f : list PlayingSound -> list PlayingSound)
    (m : Channels) : Channels :=
  {| channelsByName := channelsByName m; playingSounds := f (playingSounds m);
     sampleManager := sampleManager m; volumeNodes := volumeNodes m;
     events := events m; observed := observed m;
     next_ref := next_ref m |}.

Definition set_events (f : list ChannelsEvent -> list ChannelsEvent)
    (m : Channels) : Channels :=
  {| channelsByName := channelsByName m; playingSounds := playingSounds m;
     sampleManager := sampleManager m; volumeNodes := volumeNodes m;
     events := f (events m); observed := observed m; next_ref := next_ref m |}.

Definition dispatchEvent (e : ChannelsEvent) : M Channels unit :=
  modify (fun m =>
    {| channelsByName := channelsByName m; playingSounds := playingSounds m;
       sampleManager := sampleManager m; volumeNodes := volumeNodes m;
       events := events m ++ [e];
       observed := observed m ++ [playingSounds m];
       next_ref := next_ref m |}).

(** [new]: hands out a reference that no object has yet. *)
Definition fresh_ref : M Channels nat :=
  fun m =>
    (Return (next_ref m),
     {| channelsByName := channelsByName m; playingSounds := playingSounds m;
        sampleManager := sampleManager m; volumeNodes := volumeNodes m;
        events := events m; observed := observed m;
     next_ref := S (next_ref m) |}).

(** The constructor of [Channels], given the samples of its sample manager.
    The main [VolumeNodes] is made with the default volume, which throws
    nothing and dispatches nothing. *)
Definition construct (sounds : gmap string Sample) : Channels :=
  {| channelsByName := ∅; playingSounds := [];
     sampleManager := sounds;
     volumeNodes := snd (VolumeNodes.construct None None);
     events := []; observed := []; next_ref := 0 |}.

(** The constructor of [Channel]: [type] defaults to polyphonic, the
    [VolumeNodes] is made with the [volume] option and dispatches to the
    [Channels] object. Channel.ts passes the options as one object
    ([{volume, effectsChain, analyseMode}]) where the constructor of
    VolumeNodes.ts, as given, takes [volume]; the [volume] option is taken
    here for that argument. *)
Definition new_Channel (name : string) (o : CreateChannelOptions)
    : M Channels Channel :=
  let* r := fresh_ref in
  match VolumeNodes.construct (opt_volume o) None with
  | (Return _, vn) =>
      forEach (fun ev => dispatchEvent (VOLUME_CHANGE ev))
        (VolumeNodes.eventDispatcher vn) ;;
      ret {| chan_ref := r; chan_name := name;
             chan_type := default polyphonic (opt_type o);
             chan_volumeNodes := vn |}
  | (Throw e, vn) =>
      forEach (fun ev => dispatchEvent (VOLUME_CHANGE ev))
        (VolumeNodes.eventDispatcher vn) ;;
      throw e
  end.

Definition createChannel (name : string) (createChannelOptions : CreateChannelOptions)
    : M Channels Channel :=
  if decide (name = "") then throw InvalidArgument
  else
    let* existing := gets (fun m => channelsByName m !! name) in
    if existing is Some _ then throw DuplicateChannel
    else
      let* channel := new_Channel name createChannelOptions in
      modify (set_channelsByName (fun cs => <[name := channel]> cs)) ;;
      dispatchEvent CHANNELS_UPDATED ;;
      ret channel.

Definition getPlayingSounds : M Channels (list PlayingSound) :=
  gets playingSounds.

(** [this.playingSounds.indexOf(playingSound)]: the first index that holds
    the same object, if any. *)
Definition indexOf (playingSound : PlayingSound) (l : list PlayingSound)
    : option nat :=
  fst <$> list_find (fun p => ps_ref p = ps_ref playingSound) l.

Definition removePlayingSound (playingSound : PlayingSound) : M Channels unit :=
  let* index := gets (fun m => indexOf playingSound (playingSounds m)) in
  match index with
  | Some i =>
      modify (set_playingSounds (delete i)) ;;
      dispatchEvent PLAYING_SOUNDS_UPDATED
  | None => throw NotRegistered
  end.

(** Modelled from the spec: [PlayingSound.stop] of PlayingSound.ts,
    "invoking the underlying audio stop and deregistering from the Mixer's
    active-sound registry". The audio stop has no part in the registry. *)
Definition stop (playingSound : PlayingSound) : M Channels unit :=
  removePlayingSound playingSound.

(** [this.channelsByName[channel]] is read here from the own properties of
    the object. For a name that every object inherits from
    [Object.prototype] ('toString', 'constructor', ...) the program finds
    the inherited value, which is truthy, and does not throw: such names
    are outside this definition. *)
Definition getOptionalChannelByNameOrInstance (channel : option ChannelSelector)
    : M Channels (option Channel) :=
  match channel with
  | Some (ByName name) =>
      let* found := gets (fun m => channelsByName m !! name) in
      match found with
      | None => throw ChannelNotFound
      | Some c => ret (Some c)
      end
  | Some (ByInstance c) => ret (Some c)
  | None => ret None
  end.

(** [channel === channelToStop] for a [channelToStop] that is a channel. *)
Definition is_channel (channelToStop : Channel) (channel : option Channel) : bool :=
  match channel with
  | Some c => bool_decide (chan_ref c = chan_ref channelToStop)
  | None => false
  end.

(** The callback of the [filter] in [stopAll]. *)
Definition to_stop (channelToStop : option Channel) (p : PlayingSound) : bool :=
  match channelToStop with
  | Some c => is_channel c (ps_channel p)
  | None => true
  end.

Definition stopAll (channel : option ChannelSelector) : M Channels unit :=
  let* channelToStop := getOptionalChannelByNameOrInstance channel in
  let* sounds := gets playingSounds in
  forEach stop (filter (fun p => to_stop channelToStop p = true) sounds).

Definition getChannel (channelName : string) : M Channels Channel :=
  let* found := gets (fun m => channelsByName m !! channelName) in
  match found with
  | None => throw ChannelNotFound
  | Some c => ret c
  end.

(** Modelled from the spec: the constructor of [PlayingSound], which makes
    a new object from the sample, the channel and the options. *)
Definition new_PlayingSound (sound : Sample) (channel : option Channel)
    (o : PlaySoundOptions) : M Channels PlayingSound :=
  let* r := fresh_ref in
  ret {| ps_ref := r; ps_sound := sound; ps_channel := channel; ps_options := o |}.

Definition play (name : string) (channel : option ChannelSelector)
    (playSoundOptions : PlaySoundOptions) : M Channels PlayingSound :=
  let* sound := gets (fun m => sampleManager m !! name) in
  match sound with
  | None => throw SampleNotFound
  | Some sound =>
      let* channelForSound := getOptionalChannelByNameOrInstance channel in
      let* playingSound := new_PlayingSound sound channelForSound playSoundOptions in
      (if channelForSound is Some c then
         match chan_type c with
         | monophonic => stopAll channel
         | polyphonic => ret tt
         end
       else ret tt) ;;
      modify (set_playingSounds (fun l => l ++ [playingSound])) ;;
      dispatchEvent PLAYING_SOUNDS_UPDATED ;;
      ret playingSound
  end.

(** *** Sequences of calls

    A caller that catches what a call throws and goes on. *)
Inductive Call : Type :=
  | CallCreateChannel (name : string) (o : CreateChannelOptions)
  | CallPlay (name : string) (channel : option ChannelSelector) (o : PlaySoundOptions)
  | CallStop (p : PlayingSound)
  | CallStopAll (channel : option ChannelSelector)
  | CallRemovePlayingSound (p : PlayingSound).

Definition run_call (c : Call) (m : Channels) : Channels :=
  match c with
  | CallCreateChannel name o => snd (createChannel name o m)
  | CallPlay name channel o => snd (play name channel o m)
  | CallStop p => snd (stop p m)
  | CallStopAll channel => snd (stopAll channel m)
  | CallRemovePlayingSound p => snd (removePlayingSound p m)
  end.

Definition run_calls (cs : list Call) (m : Channels) : Channels :=
  foldl (fun m c => run_call c m) m cs.

(** The registry holds no object twice, and only objects made so far. *)
Definition registry_wf (m : Channels) : Prop :=
  NoDup (ps_ref <$> playingSounds m) /\
  Forall (fun p => (ps_ref p < next_ref m)%nat) (playingSounds m).

(** [m'] differs from [m] in the registry and the dispatched events only. *)
Definition registry_frame (m m' : Channels) : Prop :=
  channelsByName m' = channelsByName m /\
  sampleManager m' = sampleManager m /\
  volumeNodes m' = volumeNodes m /\
  next_ref m' = next_ref m.

(** From [m] to [m'] the registry has lost objects at most, and no
    reference has been taken back. *)
Definition evolves (m m' : Channels) : Prop :=
  playingSounds m' `sublist_of` playingSounds m /\
  (next_ref m <= next_ref m')%nat.

(** The playing sound is on the channel [c]. *)
Definition plays_on (c : Channel) (p : PlayingSound) : bool :=
  is_channel c (ps_channel p).

(** Every channel is registered under its own name, which is not blank. *)
Definition channels_wf (m : Channels) : Prop :=
  forall name c, channelsByName m !! name = Some c -> chan_name c = name /\ name <> "".

(** *** A session for the examples: a monophonic channel "fx", a
    polyphonic channel "music", and three sounds playing, one on each
    channel and one on the main output. *)
Definition sample_a : Sample := {| sample_name := "a" |}.
Definition sample_b : Sample := {| sample_name := "b" |}.

Definition no_options : PlaySoundOptions := {| loop := false; fadeOutTime := None |}.

Definition fresh_mixer : Channels :=
  construct {[ "a" := sample_a; "b" := sample_b ]}.

Definition session : Channels :=
  run_calls
    [ CallCreateChannel "fx" {| opt_type := Some monophonic; opt_volume := None |};
      CallCreateChannel "music" {| opt_type := None; opt_volume := None |};
      CallPlay "a" (Some (ByName "fx")) no_options;
      CallPlay "a" (Some (ByName "music")) no_options;
      CallPlay "b" None no_options ]
    fresh_mixer.

Definition fx : Channel :=
  {| chan_ref := 0; chan_name := "fx"; chan_type := monophonic;
     chan_volumeNodes := snd (VolumeNodes.construct None None) |}.

Definition music : Channel :=
  {| chan_ref := 1; chan_name := "music"; chan_type := polyphonic;
     chan_volumeNodes := snd (VolumeNodes.construct None None) |}.

(** The sound of the session that plays on "fx". *)
Definition fx_sound : PlayingSound :=
  {| ps_ref := 2; ps_sound := sample_a; ps_channel := Some fx;
     ps_options := no_options |}.

(** The sounds of the session that play on "music" and on the main output,
    and the one that a play of "b" on "fx" makes in the session. *)
Definition music_sound : PlayingSound :=
  {| ps_ref := 3; ps_sound := sample_a; ps_channel := Some music;
     ps_options := no_options |}.

Definition main_sound : PlayingSound :=
  {| ps_ref := 4; ps_sound := sample_b; ps_channel := None;
     ps_options := no_options |}.

Definition next_fx_sound : PlayingSound :=
  {| ps_ref := 5; ps_sound := sample_b; ps_channel := Some fx;
     ps_options := no_options |}.

(** *** Channel.ts: the methods that go through the mixer

    [Channel.play] and [Channel.stopAll] call the mixer of the channel with
    the name of the channel as the selector; [Channel.play] returns
    nothing. *)
Definition Channel_play (c : Channel) (name : string) (options : PlaySoundOptions)
    : M Channels unit :=
  play name (Some (ByName (chan_name c))) options ;; ret tt.

Definition Channel_stopAll (c : Channel) : M Channels unit :=
  stopAll (Some (ByName (chan_name c))).

(** The playing sounds that a play request resolved to [oc] stops: those on
    the channel when it is monophonic, none otherwise. *)
Definition stolen_by (oc : option Channel) (q : PlayingSound) : bool :=
  match oc with
  | Some c =>
      match chan_type c with
      | monophonic => plays_on c q
      | polyphonic => false
      end
  | None => false
  end.

(** A call with its result dropped. *)
Definition perform (c : Call) : M Channels unit :=
  match c with
  | CallCreateChannel name o => createChannel name o ;; ret tt
  | CallPlay name channel o => play name channel o ;; ret tt
  | CallStop p => stop p
  | CallStopAll channel => stopAll channel
  | CallRemovePlayingSound p => removePlayingSound p
  end.

(** A call that is not a play request with a channel object as selector. *)
Definition plays_by_name (c : Call) : bool :=
  match c with
  | CallPlay _ (Some (ByInstance _)) _ => false
  | _ => true
  end.

(** The registry and the channels fit together: the registry is well
    formed, every channel is registered under its name with a reference
    given out before, no two registered channels are one object, and every
    playing sound that has a channel has a registered one. *)
Definition mixer_wf (m : Channels) : Prop :=
  registry_wf m /\
  (forall name c, channelsByName m !! name = Some c ->
     chan_name c = name /\ (chan_ref c < next_ref m)%nat) /\
  (forall n1 n2 c1 c2,
     channelsByName m !! n1 = Some c1 -> channelsByName m !! n2 = Some c2 ->
     chan_ref c1 = chan_ref c2 -> n1 = n2) /\
  (forall p c, p ∈ playingSounds m -> ps_channel p = Some c ->
     channelsByName m !! chan_name c = Some c).

(** No registered monophonic channel has more than one playing sound. *)
Definition one_voice (m : Channels) : Prop :=
  forall name c,
    channelsByName m !! name = Some c -> chan_type c = monophonic ->
    (length (filter (fun p => plays_on c p = true) (playingSounds m)) <= 1)%nat.

End Channels.

(** * Properties *)

(** Unfolds the monad so that a method applied to a state computes. *)
Ltac run_monad :=
  unfold bind, ret, throw, gets, modify in *; simpl in *.

(** ** The volume controls *)

Module VolumeNodesFacts.
Import VolumeNodes.

Lemma Qc_neg_not_nonneg (v : Qc) : 0 <= v -> ~ v < 0.
Proof. intros H. by apply Qcle_not_lt. Qed.

Lemma Qc_pos_nonzero (v : Qc) : 0 < v -> v <> 0.
Proof. intros H ->. by apply (Qclt_not_le _ _ H). Qed.

(** [setVolume] on a value that is not negative returns, and leaves that
    value as the volume. *)
Lemma setVolume_returns (v : Qc) (s : t) :
  0 <= v ->
  exists s', setVolume v s = (Return tt, s') /\ volumeGain s' = v.
Proof.
  intros Hv. unfold setVolume.
  destruct (decide (v < 0)) as [Hneg|_].
  { by apply Qc_neg_not_nonneg in Hneg. }
  run_monad. destruct (decide (v = volumeGain s)) as [->|Hne].
  - by eexists.
  - destruct (decide (v = 0)); by eexists.
Qed.

(** What [setVolume] does to a volume that is not the current one. *)
Lemma setVolume_changes (v : Qc) (s : t) :
  0 <= v -> v <> volumeGain s ->
  setVolume v s =
    (Return tt,
     {| volumeGain := v; fadeGain := fadeGain s;
        volumeValueBeforeMute := if decide (v = 0) then Some 1 else None;
        eventDispatcher :=
          eventDispatcher s ++
            [ {| seen_volume := volumeGain s;
                 seen_volumeValueBeforeMute :=
                   if decide (v = 0) then Some 1 else None |} ] |}).
Proof.
  intros Hv Hne. unfold setVolume.
  destruct (decide (v < 0)) as [Hneg|_].
  { by apply Qc_neg_not_nonneg in Hneg. }
  run_monad. destruct (decide (v = volumeGain s)); [done|].
  by destruct (decide (v = 0)).
Qed.

Lemma setVolume_same (s : t) :
  0 <= volumeGain s -> setVolume (volumeGain s) s = (Return tt, s).
Proof.
  intros Hv. unfold setVolume.
  destruct (decide (volumeGain s < 0)) as [Hneg|_].
  { by apply Qc_neg_not_nonneg in Hneg. }
  run_monad. by destruct (decide (volumeGain s = volumeGain s)).
Qed.

Lemma mute_effective (s : t) :
  0 < volumeGain s ->
  mute s =
    (Return tt,
     {| volumeGain := 0; fadeGain := fadeGain s;
        volumeValueBeforeMute := Some (volumeGain s);
        eventDispatcher :=
          eventDispatcher s ++
            [ {| seen_volume := 0;
                 seen_volumeValueBeforeMute := Some (volumeGain s) |} ] |}).
Proof.
  intros Hv. unfold mute, getVolume. run_monad.
  by destruct (decide (0 < volumeGain s)).
Qed.

Lemma mute_at_zero (s : t) : volumeGain s = 0 -> mute s = (Return tt, s).
Proof.
  intros Hv. unfold mute, getVolume. run_monad. rewrite Hv.
  by destruct (decide (0 < 0)).
Qed.

Lemma unmute_effective (s : t) :
  volumeGain s = 0 ->
  unmute s =
    (Return tt,
     {| volumeGain := default 1 (volumeValueBeforeMute s); fadeGain := fadeGain s;
        volumeValueBeforeMute := volumeValueBeforeMute s;
        eventDispatcher :=
          eventDispatcher s ++
            [ {| seen_volume := default 1 (volumeValueBeforeMute s);
                 seen_volumeValueBeforeMute := volumeValueBeforeMute s |} ] |}).
Proof.
  intros Hv. unfold unmute, getVolume. run_monad.
  by destruct (decide (volumeGain s = 0)).
Qed.

Lemma unmute_at_nonzero (s : t) : volumeGain s <> 0 -> unmute s = (Return tt, s).
Proof.
  intros Hv. unfold unmute, getVolume. run_monad.
  by destruct (decide (volumeGain s = 0)).
Qed.

(** C3: for every v >= 0, [setVolume v] returns and [getVolume] then
    returns v; for every v < 0, [setVolume v] throws InvalidArgument and
    the state, so the stored volume, is what it was. *)
Theorem setVolume_then_getVolume (v : Qc) (s : t) :
  (0 <= v ->
     exists s', setVolume v s = (Return tt, s') /\ getVolume s' = (Return v, s')) /\
  (v < 0 -> setVolume v s = (Throw InvalidArgument, s)).
Proof.
  split.
  - intros Hv. destruct (setVolume_returns v s Hv) as (s' & Hs & Hg).
    exists s'. split; [done|]. unfold getVolume, gets. by rewrite Hg.
  - intros Hv. unfold setVolume. by destruct (decide (v < 0)).
Qed.

Lemma setVolume_then_getVolume_witness :
  (exists s', setVolume (Q2Qc (3 # 5)) created = (Return tt, s') /\
              getVolume s' = (Return (Q2Qc (3 # 5)), s')) /\
  setVolume (- 1) created = (Throw InvalidArgument, created).
Proof.
  split.
  - apply (proj1 (setVolume_then_getVolume (Q2Qc (3 # 5)) created)). done.
  - apply (proj2 (setVolume_then_getVolume (- 1) created)). done.
Defined.

(** C4: for every v > 0, after [setVolume v] and [mute], [getVolume]
    returns 0, and after [unmute] it returns v again; [mute] at volume 0
    changes nothing and [unmute] at a volume other than 0 changes nothing. *)
Theorem mute_unmute_round_trip (v : Qc) (s : t) :
  0 < v ->
  (exists s1 s2 s3,
     setVolume v s = (Return tt, s1) /\
     mute s1 = (Return tt, s2) /\ getVolume s2 = (Return 0, s2) /\
     unmute s2 = (Return tt, s3) /\ getVolume s3 = (Return v, s3)) /\
  (forall s0, volumeGain s0 = 0 -> mute s0 = (Return tt, s0)) /\
  (forall s0, volumeGain s0 <> 0 -> unmute s0 = (Return tt, s0)).
Proof.
  intros Hv. split; [|split; [apply mute_at_zero | apply unmute_at_nonzero]].
  destruct (setVolume_returns v s (Qclt_le_weak _ _ Hv)) as (s1 & Hs1 & Hg1).
  exists s1. eexists. eexists. split; [done|].
  rewrite mute_effective by (by rewrite Hg1). split; [done|].
  split; [done|]. rewrite unmute_effective by done. simpl.
  split; [done|]. unfold getVolume, gets. simpl. by rewrite Hg1.
Qed.

Lemma mute_unmute_round_trip_witness :
  exists s1 s2 s3,
    setVolume (Q2Qc (3 # 5)) created = (Return tt, s1) /\
    mute s1 = (Return tt, s2) /\ getVolume s2 = (Return 0, s2) /\
    unmute s2 = (Return tt, s3) /\ getVolume s3 = (Return (Q2Qc (3 # 5)), s3).
Proof.
  apply (proj1 (mute_unmute_round_trip (Q2Qc (3 # 5)) created eq_refl)).
Defined.

Lemma setVolume_zero_at_zero (s : t) :
  volumeGain s = 0 -> setVolume 0 s = (Return tt, s).
Proof.
  intros Hz. pose proof (setVolume_same s) as H. rewrite Hz in H. by apply H.
Qed.

Lemma repeatedly_setVolume_zero (n : nat) (s : t) :
  volumeGain s = 0 -> repeatedly n (setVolume 0) s = (Return tt, s).
Proof.
  intros Hz. induction n as [|n IH]; [done|].
  simpl. unfold bind at 1. by rewrite setVolume_zero_at_zero.
Qed.

(** C5: when the volume gets to 0 through [setVolume 0], from a volume
    other than 0 or with no restore target recorded, [unmute] then sets the
    volume to 1; so it does when [setVolume 0] is called over again first. *)
Theorem implicit_mute_restores_one (n : nat) (s : t) :
  volumeGain s <> 0 \/ volumeValueBeforeMute s = None ->
  exists s1 s2,
    repeatedly (S n) (setVolume 0) s = (Return tt, s1) /\
    getVolume s1 = (Return 0, s1) /\
    unmute s1 = (Return tt, s2) /\ getVolume s2 = (Return 1, s2).
Proof.
  intros Hs. simpl. unfold bind at 1.
  destruct (decide (volumeGain s = 0)) as [Hz|Hnz].
  - destruct Hs as [Hs|Hs]; [done|].
    rewrite setVolume_zero_at_zero by done.
    rewrite repeatedly_setVolume_zero by done.
    exists s. eexists. split; [done|].
    split; [by unfold getVolume, gets; rewrite Hz|].
    rewrite (unmute_effective s Hz), Hs. simpl. by split.
  - rewrite setVolume_changes by done.
    rewrite repeatedly_setVolume_zero by done.
    eexists. eexists. split; [done|]. split; [done|].
    rewrite unmute_effective by done. simpl. by split.
Qed.

Lemma implicit_mute_restores_one_witness :
  exists s1 s2,
    repeatedly 3 (setVolume 0) created = (Return tt, s1) /\
    getVolume s1 = (Return 0, s1) /\
    unmute s1 = (Return tt, s2) /\ getVolume s2 = (Return 1, s2).
Proof.
  apply (implicit_mute_restores_one 2 created). right. reflexivity.
Defined.

(** C10: for every v > 0, in [setVolume v; mute; setVolume 0] the last call
    changes nothing, the restore target stays v, and [unmute] then brings
    the volume back to v. *)
Theorem setVolume_zero_keeps_mute_target (v : Qc) (s : t) :
  0 < v ->
  exists s1 s2 s3,
    setVolume v s = (Return tt, s1) /\
    mute s1 = (Return tt, s2) /\
    setVolume 0 s2 = (Return tt, s2) /\
    volumeValueBeforeMute s2 = Some v /\
    unmute s2 = (Return tt, s3) /\ getVolume s3 = (Return v, s3).
Proof.
  intros Hv.
  destruct (setVolume_returns v s (Qclt_le_weak _ _ Hv)) as (s1 & Hs1 & Hg1).
  exists s1. eexists. eexists. split; [done|].
  rewrite mute_effective by (by rewrite Hg1). split; [done|].
  split; [by apply setVolume_zero_at_zero|].
  split; [by rewrite Hg1|].
  rewrite unmute_effective by done. simpl.
  split; [done|]. unfold getVolume, gets. simpl. by rewrite Hg1.
Qed.

Lemma setVolume_zero_keeps_mute_target_witness :
  exists s1 s2 s3,
    setVolume (Q2Qc (3 # 5)) created = (Return tt, s1) /\
    mute s1 = (Return tt, s2) /\
    setVolume 0 s2 = (Return tt, s2) /\
    volumeValueBeforeMute s2 = Some (Q2Qc (3 # 5)) /\
    unmute s2 = (Return tt, s3) /\ getVolume s3 = (Return (Q2Qc (3 # 5)), s3).
Proof.
  apply (setVolume_zero_keeps_mute_target (Q2Qc (3 # 5)) created eq_refl).
Defined.

(** Each real change sends one event: the dispatcher gets one more. *)
Lemma real_change_notifies_once (s : t) :
  (forall v s', 0 <= v -> v <> volumeGain s -> setVolume v s = (Return tt, s') ->
     length (eventDispatcher s') = S (length (eventDispatcher s))) /\
  (forall s', 0 < volumeGain s -> mute s = (Return tt, s') ->
     length (eventDispatcher s') = S (length (eventDispatcher s))) /\
  (forall s', volumeGain s = 0 -> unmute s = (Return tt, s') ->
     length (eventDispatcher s') = S (length (eventDispatcher s))).
Proof.
  split; [|split].
  - intros v s' Hv Hne. rewrite setVolume_changes by done.
    intros [= <-]. simpl. rewrite length_app. simpl. lia.
  - intros s' Hv. rewrite mute_effective by done.
    intros [= <-]. simpl. rewrite length_app. simpl. lia.
  - intros s' Hv. rewrite unmute_effective by done.
    intros [= <-]. simpl. rewrite length_app. simpl. lia.
Qed.

(** [mute] and [unmute] write the gain first and dispatch after: the
    listener reads the volume that the call leaves. *)
Lemma mute_unmute_notify_after_write (s : t) :
  (0 < volumeGain s ->
     exists s', mute s = (Return tt, s') /\
       seen_volume <$> last (eventDispatcher s') = Some (volumeGain s')) /\
  (volumeGain s = 0 ->
     exists s', unmute s = (Return tt, s') /\
       seen_volume <$> last (eventDispatcher s') = Some (volumeGain s')).
Proof.
  split; intros Hv; eexists.
  - rewrite mute_effective by done. split; [done|]. simpl. by rewrite last_snoc.
  - rewrite unmute_effective by done. split; [done|]. simpl. by rewrite last_snoc.
Qed.

(** C9, where the code departs from it: [setVolume] to another value sends
    its one event before it writes the gain, so the listener reads the old
    volume, not the one being set, next to a restore target that is already
    the new one. *)
Theorem setVolume_notifies_before_write (v : Qc) (s : t) :
  0 <= v -> v <> volumeGain s ->
  exists s' e,
    setVolume v s = (Return tt, s') /\
    eventDispatcher s' = eventDispatcher s ++ [e] /\
    seen_volume e = volumeGain s /\
    seen_volume e <> volumeGain s' /\
    seen_volumeValueBeforeMute e = volumeValueBeforeMute s'.
Proof.
  intros Hv Hne. eexists. eexists.
  rewrite setVolume_changes by done. simpl.
  split; [done|]. split; [done|]. split; [done|]. split; [|done].
  intros Heq. by apply Hne.
Qed.

Lemma setVolume_notifies_before_write_witness :
  exists s' e,
    setVolume 0 created = (Return tt, s') /\
    eventDispatcher s' = [e] /\
    seen_volume e = 1 /\
    seen_volume e <> volumeGain s' /\
    seen_volumeValueBeforeMute e = volumeValueBeforeMute s'.
Proof.
  apply (setVolume_notifies_before_write 0 created); done.
Defined.

(** The constructor returns when the volume it is given is not negative,
    and throws InvalidArgument when it is. *)
Lemma construct_returns (volume fadeVolume : option Qc) :
  (forall v, volume = Some v -> 0 <= v) ->
  exists vn, construct volume fadeVolume = (Return tt, vn).
Proof.
  intros Hv. unfold construct. unfold bind.
  destruct (setVolume_returns (default 1 volume) created) as (s' & -> & _).
  { destruct volume as [v|]; [by apply Hv|done]. }
  by eexists.
Qed.

End VolumeNodesFacts.

(** ** The mixer *)

Module ChannelsFacts.
Import Channels.

Lemma registry_frame_refl (m : Channels) : registry_frame m m.
Proof. by repeat split. Qed.

Lemma registry_frame_trans (m1 m2 m3 : Channels) :
  registry_frame m1 m2 -> registry_frame m2 m3 -> registry_frame m1 m3.
Proof.
  intros (?&?&?&?) (?&?&?&?). repeat split; congruence.
Qed.

(** *** [indexOf] and [removePlayingSound] *)

Lemma indexOf_None (p : PlayingSound) (l : list PlayingSound) :
  indexOf p l = None <-> ps_ref p ∉ ps_ref <$> l.
Proof.
  unfold indexOf. rewrite fmap_None, list_find_None, Forall_forall.
  rewrite list_elem_of_fmap. split.
  - intros H (q & Hq & Hin). by apply (H q Hin).
  - intros H q Hin Hq. apply H. by exists q.
Qed.

Lemma indexOf_middle (x : PlayingSound) (pre l : list PlayingSound) :
  NoDup (ps_ref <$> pre ++ x :: l) ->
  indexOf x (pre ++ x :: l) = Some (length pre).
Proof.
  intros Hnd. unfold indexOf.
  assert (list_find (fun p => ps_ref p = ps_ref x) (pre ++ x :: l)
          = Some (length pre, x)) as ->; [|done].
  apply list_find_Some. split; [by apply list_lookup_middle|].
  split; [done|]. intros j y Hj Hlt Hy.
  rewrite fmap_app, fmap_cons in Hnd.
  apply NoDup_app in Hnd as (_ & Hdis & _).
  apply (Hdis (ps_ref x)); [|by left].
  rewrite lookup_app_l in Hj by done.
  rewrite <- Hy. apply list_elem_of_fmap_2. by eapply list_elem_of_lookup_2.
Qed.

Lemma removePlayingSound_absent (p : PlayingSound) (m : Channels) :
  indexOf p (playingSounds m) = None ->
  removePlayingSound p m = (Throw NotRegistered, m).
Proof. intros H. unfold removePlayingSound. run_monad. by rewrite H. Qed.

Lemma removePlayingSound_middle (x : PlayingSound) (pre l : list PlayingSound)
    (m : Channels) :
  playingSounds m = pre ++ x :: l ->
  NoDup (ps_ref <$> pre ++ x :: l) ->
  exists m',
    removePlayingSound x m = (Return tt, m') /\
    playingSounds m' = pre ++ l /\
    events m' = events m ++ [PLAYING_SOUNDS_UPDATED] /\
    registry_frame m m'.
Proof.
  intros Hm Hnd. unfold removePlayingSound, dispatchEvent. run_monad.
  rewrite Hm, (indexOf_middle _ _ _ Hnd). eexists. split; [done|]. simpl.
  rewrite Hm, delete_middle. by repeat split.
Qed.

(** Whatever it returns, [removePlayingSound] takes nothing else away. *)
Lemma removePlayingSound_evolves (p : PlayingSound) (m : Channels) :
  evolves m (snd (removePlayingSound p m)).
Proof.
  unfold removePlayingSound, dispatchEvent. run_monad.
  destruct (indexOf p (playingSounds m)); simpl.
  - split; [apply sublist_delete|done].
  - by split.
Qed.

(** *** [stopAll] *)

Lemma getOptionalChannelByNameOrInstance_pure (sel : option ChannelSelector)
    (m : Channels) :
  snd (getOptionalChannelByNameOrInstance sel m) = m.
Proof.
  destruct sel as [[name|c]|]; [|done..].
  unfold getOptionalChannelByNameOrInstance. run_monad.
  by destruct (channelsByName m !! name).
Qed.

Lemma getOptionalChannelByNameOrInstance_frame (sel : option ChannelSelector)
    (oc : option Channel) (m m1 : Channels) :
  channelsByName m1 = channelsByName m ->
  getOptionalChannelByNameOrInstance sel m = (Return oc, m) ->
  getOptionalChannelByNameOrInstance sel m1 = (Return oc, m1).
Proof.
  intros Hc. destruct sel as [[name|c]|]; simpl.
  - run_monad. rewrite Hc. destruct (channelsByName m !! name); [|done].
    by intros [= <-].
  - by intros [= <-].
  - by intros [= <-].
Qed.

(** The loop of [stopAll], started on a registry [pre ++ l] whose part
    [l] is still to be looked at: what [f] selects in [l] goes, the rest
    stays where it is. *)
Lemma forEach_stop_filter (f : PlayingSound -> bool) (l : list PlayingSound) :
  forall (pre : list PlayingSound) (m : Channels),
    playingSounds m = pre ++ l ->
    NoDup (ps_ref <$> pre ++ l) ->
    exists m',
      forEach stop (filter (fun p => f p = true) l) m = (Return tt, m') /\
      playingSounds m' = pre ++ filter (fun p => f p = false) l /\
      events m' =
        events m ++
          replicate (length (filter (fun p => f p = true) l)) PLAYING_SOUNDS_UPDATED /\
      registry_frame m m'.
Proof.
  induction l as [|x l IH]; intros pre m Hm Hnd.
  - exists m. simpl. rewrite app_nil_r in *.
    repeat split; [done|by rewrite app_nil_r].
  - rewrite !filter_cons. destruct (f x) eqn:Hfx.
    + destruct (decide (true = true)); [|done].
      destruct (decide (true = false)); [done|].
      destruct (removePlayingSound_middle x pre l m Hm Hnd)
        as (m1 & Hrm & Hl1 & He1 & Hfr1).
      destruct (IH pre m1 Hl1) as (m' & Hrun & Hl' & He' & Hfr').
      { eapply sublist_NoDup; [exact Hnd|].
        apply fmap_sublist, sublist_app; [done|]. by apply sublist_cons. }
      exists m'. simpl. unfold bind at 1. unfold stop at 1. rewrite Hrm.
      split; [done|]. split; [done|].
      split; [by rewrite He', He1, <- app_assoc|].
      by eapply registry_frame_trans.
    + destruct (decide (false = true)); [done|].
      destruct (decide (false = false)); [|done].
      destruct (IH (pre ++ [x]) m) as (m' & Hrun & Hl' & He' & Hfr').
      { by rewrite <- app_assoc. }
      { by rewrite <- app_assoc. }
      exists m'. split; [done|]. split; [by rewrite Hl', <- app_assoc|].
      by split.
Qed.

(** [stopAll] on a channel selector that resolves to [oc]. *)
Lemma stopAll_resolved (sel : option ChannelSelector) (oc : option Channel)
    (m : Channels) :
  NoDup (ps_ref <$> playingSounds m) ->
  getOptionalChannelByNameOrInstance sel m = (Return oc, m) ->
  exists m',
    stopAll sel m = (Return tt, m') /\
    playingSounds m' = filter (fun p => to_stop oc p = false) (playingSounds m) /\
    events m' =
      events m ++
        replicate (length (filter (fun p => to_stop oc p = true) (playingSounds m)))
          PLAYING_SOUNDS_UPDATED /\
    registry_frame m m'.
Proof.
  intros Hnd Hsel.
  destruct (forEach_stop_filter (to_stop oc) (playingSounds m) [] m)
    as (m' & Hrun & Hl' & He' & Hfr); [done..|].
  exists m'. unfold stopAll. unfold bind at 1. rewrite Hsel.
  by run_monad.
Qed.


(** *** The registry is well formed in every state that calls lead to *)

Lemma evolves_refl (m : Channels) : evolves m m.
Proof. by split. Qed.

Lemma evolves_trans (m1 m2 m3 : Channels) :
  evolves m1 m2 -> evolves m2 m3 -> evolves m1 m3.
Proof.
  intros [Hs1 Hn1] [Hs2 Hn2]. split; [by etrans|lia].
Qed.

Lemma registry_wf_evolves (m m' : Channels) :
  registry_wf m -> evolves m m' -> registry_wf m'.
Proof.
  intros [Hnd Hlt] [Hsub Hn]. split.
  - eapply sublist_NoDup; [exact Hnd|]. by apply fmap_sublist.
  - rewrite Forall_forall in *. intros p Hp.
    specialize (Hlt p (elem_of_sublist _ _ _ Hp Hsub)). lia.
Qed.

Lemma forEach_stop_evolves (l : list PlayingSound) (m : Channels) :
  evolves m (snd (forEach stop l m)).
Proof.
  revert m. induction l as [|x l IH]; intros m; [apply evolves_refl|].
  simpl. unfold bind. pose proof (removePlayingSound_evolves x m) as Hx.
  unfold stop at 1. destruct (removePlayingSound x m) as [[[]|e] m1]; [|done].
  eapply evolves_trans; [exact Hx|apply IH].
Qed.

Lemma stopAll_evolves (sel : option ChannelSelector) (m : Channels) :
  evolves m (snd (stopAll sel m)).
Proof.
  unfold stopAll. unfold bind at 1.
  pose proof (getOptionalChannelByNameOrInstance_pure sel m) as Hp.
  destruct (getOptionalChannelByNameOrInstance sel m) as [[oc|e] m1];
    simpl in Hp; subst m1; [|apply evolves_refl].
  run_monad. apply forEach_stop_evolves.
Qed.

(** Dispatching a run of events touches the events only. *)
Lemma forEach_dispatchEvent {A} (g : A -> ChannelsEvent) (l : list A) (m : Channels) :
  exists m',
    forEach (fun e => dispatchEvent (g e)) l m = (Return tt, m') /\
    playingSounds m' = playingSounds m /\
    events m' = events m ++ (g <$> l) /\
    registry_frame m m'.
Proof.
  revert m. induction l as [|x l IH]; intros m.
  - exists m. simpl. rewrite app_nil_r. by repeat split.
  - simpl. unfold bind, dispatchEvent at 1, modify.
    destruct (IH (snd (dispatchEvent (g x) m)))
      as (m' & Hrun & Hl & He & Hfr).
    exists m'. split; [done|]. split; [done|].
    split; [by rewrite He; simpl; rewrite <- app_assoc|].
    destruct Hfr as (?&?&?&?). by repeat split.
Qed.

Lemma new_Channel_evolves (name : string) (o : CreateChannelOptions) (m : Channels) :
  evolves m (snd (new_Channel name o m)) /\
  channelsByName (snd (new_Channel name o m)) = channelsByName m.
Proof.
  unfold new_Channel, fresh_ref. unfold bind at 1.
  destruct (VolumeNodes.construct (opt_volume o) None) as [[[]|e] vn].
  - match goal with |- context [forEach ?f ?l] =>
      destruct (forEach_dispatchEvent VOLUME_CHANGE l
        {| channelsByName := channelsByName m; playingSounds := playingSounds m;
           sampleManager := sampleManager m; volumeNodes := volumeNodes m;
           events := events m; observed := observed m;
     next_ref := S (next_ref m) |})
        as (m' & Hrun & Hl & _ & (Hc & _ & _ & Hn))
    end.
    run_monad. rewrite Hrun. simpl. split; [|done].
    split; [by rewrite Hl|]. rewrite Hn. lia.
  - match goal with |- context [forEach ?f ?l] =>
      destruct (forEach_dispatchEvent VOLUME_CHANGE l
        {| channelsByName := channelsByName m; playingSounds := playingSounds m;
           sampleManager := sampleManager m; volumeNodes := volumeNodes m;
           events := events m; observed := observed m;
     next_ref := S (next_ref m) |})
        as (m' & Hrun & Hl & _ & (Hc & _ & _ & Hn))
    end.
    run_monad. rewrite Hrun. simpl. split; [|done].
    split; [by rewrite Hl|]. rewrite Hn. lia.
Qed.

Lemma createChannel_evolves (name : string) (o : CreateChannelOptions) (m : Channels) :
  evolves m (snd (createChannel name o m)).
Proof.
  unfold createChannel. destruct (decide (name = "")); [apply evolves_refl|].
  unfold bind at 1, gets.
  destruct (channelsByName m !! name); [apply evolves_refl|].
  unfold bind at 1. destruct (new_Channel_evolves name o m) as [Hev _].
  destruct (new_Channel name o m) as [[c|e] m1]; [|done].
  unfold dispatchEvent. run_monad. done.
Qed.

Lemma play_registry_wf (name : string) (sel : option ChannelSelector)
    (o : PlaySoundOptions) (m : Channels) :
  registry_wf m -> registry_wf (snd (play name sel o m)).
Proof.
  intros Hwf. unfold play. unfold bind at 1, gets.
  destruct (sampleManager m !! name) as [smp|]; [|done].
  unfold bind at 1.
  pose proof (getOptionalChannelByNameOrInstance_pure sel m) as Hp.
  destruct (getOptionalChannelByNameOrInstance sel m) as [[oc|e] m0] eqn:Hsel;
    simpl in Hp; subst m0; [|done].
  unfold new_PlayingSound, fresh_ref. unfold bind at 1 2. unfold ret at 1.
  set (m1 := {| channelsByName := channelsByName m; playingSounds := playingSounds m;
                sampleManager := sampleManager m; volumeNodes := volumeNodes m;
                events := events m; observed := observed m;
     next_ref := S (next_ref m) |}).
  set (p := {| ps_ref := next_ref m; ps_sound := smp; ps_channel := oc;
               ps_options := o |}).
  assert (exists m2, evolves m1 m2 /\
            (if oc is Some c then
               match chan_type c with
               | monophonic => stopAll sel
               | polyphonic => ret tt
               end
             else ret tt) m1 = (Return tt, m2)) as (m2 & [Hsub Hn] & Hrun).
  { destruct oc as [c|]; [|by exists m1; split; [apply evolves_refl|]].
    destruct (chan_type c); [|by exists m1; split; [apply evolves_refl|]].
    pose proof (stopAll_evolves sel m1) as Hev.
    destruct (stopAll_resolved sel (Some c) m1) as (m2 & Hrun & _).
    { apply Hwf. }
    { by apply (getOptionalChannelByNameOrInstance_frame sel (Some c) m m1). }
    exists m2. rewrite Hrun in Hev. by split. }
  unfold bind at 1. rewrite Hrun. unfold dispatchEvent. run_monad.
  destruct Hwf as [Hnd Hlt]. rewrite Forall_forall in Hlt.
  assert (forall q, q ∈ playingSounds m2 -> (ps_ref q < next_ref m)%nat) as Hlt2.
  { intros q Hq. apply Hlt. by eapply elem_of_sublist. }
  split; simpl.
  - rewrite fmap_app. apply NoDup_app. split; [|split].
    + eapply sublist_NoDup; [exact Hnd|]. by apply fmap_sublist.
    + intros r (q & -> & Hq)%list_elem_of_fmap Hin.
      apply list_elem_of_singleton in Hin. simpl in Hin.
      specialize (Hlt2 q Hq). lia.
    + apply NoDup_singleton.
  - rewrite Forall_forall. intros q [Hq|Hq]%elem_of_app.
    + specialize (Hlt2 q Hq). simpl in Hn. lia.
    + apply list_elem_of_singleton in Hq. subst q. simpl in *. lia.
Qed.

Lemma run_call_registry_wf (c : Call) (m : Channels) :
  registry_wf m -> registry_wf (run_call c m).
Proof.
  intros Hwf. destruct c as [name o|name sel o|p|sel|p]; simpl.
  - eapply registry_wf_evolves; [done|apply createChannel_evolves].
  - by apply play_registry_wf.
  - eapply registry_wf_evolves; [done|apply removePlayingSound_evolves].
  - eapply registry_wf_evolves; [done|apply stopAll_evolves].
  - eapply registry_wf_evolves; [done|apply removePlayingSound_evolves].
Qed.

Lemma run_calls_registry_wf (cs : list Call) (m : Channels) :
  registry_wf m -> registry_wf (run_calls cs m).
Proof.
  revert m. induction cs as [|c cs IH]; intros m Hwf; [done|].
  simpl. by apply IH, run_call_registry_wf.
Qed.

Lemma construct_registry_wf (sounds : gmap string Sample) :
  registry_wf (construct sounds).
Proof. split; simpl; [apply NoDup_nil_2|apply Forall_nil_2]. Qed.

Example session_registry :
  (ps_sound <$> playingSounds session) = [sample_a; sample_a; sample_b] /\
  (fmap chan_name <$> (ps_channel <$> playingSounds session))
    = [Some "fx"; Some "music"; None] /\
  channelsByName session !! "fx" = Some fx.
Proof. vm_compute. by repeat split. Qed.

(** *** [play] *)

Lemma filter_true_filter_false {A} (f : A -> bool) (l : list A) :
  filter (fun x => f x = true) (filter (fun x => f x = false) l) = [].
Proof.
  induction l as [|x l IH]; [done|].
  rewrite filter_cons. destruct (decide (f x = false)) as [Hx|Hx]; [|done].
  rewrite filter_cons. destruct (decide (f x = true)); [congruence|done].
Qed.




(** *** [createChannel] *)

Lemma new_Channel_returns (name : string) (o : CreateChannelOptions) (m : Channels) :
  (forall v, opt_volume o = Some v -> 0 <= v) ->
  exists c m', new_Channel name o m = (Return c, m').
Proof.
  intros Hv. unfold new_Channel, fresh_ref. unfold bind at 1.
  destruct (VolumeNodesFacts.construct_returns (opt_volume o) None Hv) as (vn & ->).
  unfold bind. cbv beta iota.
  match goal with |- context [forEach ?f ?l ?m0] =>
    destruct (forEach_dispatchEvent VOLUME_CHANGE l m0) as (m' & Hrun & _)
  end.
  rewrite Hrun. by eexists; eexists.
Qed.

Lemma new_Channel_name (name : string) (o : CreateChannelOptions)
    (m m' : Channels) (c : Channel) :
  new_Channel name o m = (Return c, m') ->
  chan_name c = name /\ chan_type c = default polyphonic (opt_type o).
Proof.
  unfold new_Channel, fresh_ref. unfold bind at 1.
  destruct (VolumeNodes.construct (opt_volume o) None) as [[[]|e] vn].
  - unfold bind, ret.
    match goal with |- context [forEach ?f ?l ?m0] =>
      destruct (forEach f l m0) as [[[]|e] m1] end; [|done].
    by intros [= <- <-].
  - unfold bind, throw.
    match goal with |- context [forEach ?f ?l ?m0] =>
      by destruct (forEach f l m0) as [[[]|e'] m1] end.
Qed.

(** What [createChannel] does to the channels, whatever it returns. *)
Lemma createChannel_channels (name : string) (o : CreateChannelOptions) (m : Channels) :
  match createChannel name o m with
  | (Return c, m') =>
      name <> "" /\ channelsByName m !! name = None /\
      chan_name c = name /\ chan_type c = default polyphonic (opt_type o) /\
      channelsByName m' = <[name := c]> (channelsByName m)
  | (Throw e, m') => channelsByName m' = channelsByName m
  end.
Proof.
  unfold createChannel. destruct (decide (name = "")); [done|].
  unfold bind at 1, gets.
  destruct (channelsByName m !! name) eqn:Hlook; [done|].
  unfold bind at 1.
  destruct (new_Channel_evolves name o m) as [_ Hch].
  pose proof (new_Channel_name name o m) as Hname.
  destruct (new_Channel name o m) as [[c|e] m1]; [|done].
  destruct (Hname m1 c eq_refl) as [Hn Ht].
  unfold dispatchEvent. run_monad. by rewrite Hch.
Qed.


(** *** The channels are well formed in every state that calls lead to *)

Lemma removePlayingSound_channels (p : PlayingSound) (m : Channels) :
  channelsByName (snd (removePlayingSound p m)) = channelsByName m.
Proof.
  unfold removePlayingSound, dispatchEvent. run_monad.
  by destruct (indexOf p (playingSounds m)).
Qed.

Lemma forEach_stop_channels (l : list PlayingSound) (m : Channels) :
  channelsByName (snd (forEach stop l m)) = channelsByName m.
Proof.
  revert m. induction l as [|x l IH]; intros m; [done|].
  simpl. unfold bind. pose proof (removePlayingSound_channels x m) as Hx.
  unfold stop at 1. destruct (removePlayingSound x m) as [[[]|e] m1]; [|done].
  by rewrite IH.
Qed.

Lemma stopAll_channels (sel : option ChannelSelector) (m : Channels) :
  channelsByName (snd (stopAll sel m)) = channelsByName m.
Proof.
  unfold stopAll. unfold bind at 1.
  pose proof (getOptionalChannelByNameOrInstance_pure sel m) as Hp.
  destruct (getOptionalChannelByNameOrInstance sel m) as [[oc|e] m1];
    simpl in Hp; subst m1; [|done].
  run_monad. apply forEach_stop_channels.
Qed.

Lemma play_channels (name : string) (sel : option ChannelSelector)
    (o : PlaySoundOptions) (m : Channels) :
  channelsByName (snd (play name sel o m)) = channelsByName m.
Proof.
  unfold play. unfold bind at 1, gets.
  destruct (sampleManager m !! name) as [smp|]; [|done].
  unfold bind at 1.
  pose proof (getOptionalChannelByNameOrInstance_pure sel m) as Hp.
  destruct (getOptionalChannelByNameOrInstance sel m) as [[oc|e] m0];
    simpl in Hp; subst m0; [|done].
  unfold new_PlayingSound, fresh_ref. unfold bind at 1 2. unfold ret at 1.
  cbv beta iota.
  destruct oc as [c|]; [destruct (chan_type c)|]; try done.
  unfold bind at 1.
  match goal with |- context [stopAll sel ?m1] =>
    pose proof (stopAll_channels sel m1) as Hs;
    destruct (stopAll sel m1) as [[[]|e] m2]; [|done]
  end.
  done.
Qed.

Lemma run_call_channels_wf (c : Call) (m : Channels) :
  channels_wf m -> channels_wf (run_call c m).
Proof.
  intros Hwf. destruct c as [name o|name sel o|p|sel|p]; simpl.
  - pose proof (createChannel_channels name o m) as H.
    destruct (createChannel name o m) as [[c|e] m']; simpl.
    + destruct H as (Hne & _ & Hn & _ & Hch). intros n c'. rewrite Hch.
      destruct (decide (name = n)) as [<-|Hnn].
      * rewrite lookup_insert_eq. by intros [= <-].
      * rewrite lookup_insert_ne by done. apply Hwf.
    + intros n c'. rewrite H. apply Hwf.
  - intros n c'. rewrite play_channels. apply Hwf.
  - intros n c'. unfold stop. rewrite removePlayingSound_channels. apply Hwf.
  - intros n c'. rewrite stopAll_channels. apply Hwf.
  - intros n c'. rewrite removePlayingSound_channels. apply Hwf.
Qed.

Lemma run_calls_channels_wf (cs : list Call) (m : Channels) :
  channels_wf m -> channels_wf (run_calls cs m).
Proof.
  revert m. induction cs as [|c cs IH]; intros m Hwf; [done|].
  simpl. by apply IH, run_call_channels_wf.
Qed.

Lemma construct_channels_wf (sounds : gmap string Sample) :
  channels_wf (construct sounds).
Proof. intros name c. simpl. by rewrite lookup_empty. Qed.



(** *** Removal happens once *)




End ChannelsFacts.

(** ** More on the volume controls *)

Module VolumeNodesExtra.
Import VolumeNodes.

Lemma volume_call_wf (c : VolumeCall) (s : t) :
  volume_wf s -> volume_wf (snd (volume_call c s)).
Proof.
  intros [Hnn Hz]. destruct c as [v| |]; simpl.
  - unfold setVolume. destruct (decide (v < 0)) as [|Hv]; [done|].
    apply Qcnot_lt_le in Hv. run_monad.
    destruct (decide (v = volumeGain s)); [done|].
    destruct (decide (v = 0)) as [->|Hv0]; simpl.
    + split; [done|]. intros _. by exists 1.
    + by split.
  - unfold mute, getVolume. run_monad.
    destruct (decide (0 < volumeGain s)) as [Hpos|]; [|done]. simpl.
    split; [done|]. intros _. by eexists.
  - unfold unmute, getVolume. run_monad.
    destruct (decide (volumeGain s = 0)) as [H0|]; [|done]. simpl.
    destruct (Hz H0) as (w & Hw & Hpos). rewrite Hw. simpl.
    split; [by apply Qclt_le_weak|].
    intros Hw0. simpl in Hw0. exfalso. rewrite Hw0 in Hpos.
    apply (Qclt_not_le _ _ Hpos), Qcle_refl.
Qed.

Lemma volume_calls_wf (cs : list VolumeCall) (s : t) :
  volume_wf s -> volume_wf (volume_calls cs s).
Proof.
  revert s. induction cs as [|c cs IH]; intros s Hwf; [done|].
  simpl. by apply IH, volume_call_wf.
Qed.

Lemma created_wf : volume_wf created.
Proof. split; [done|]. intros H. by apply Q2Qc_eq_iff in H. Qed.

Lemma construct_wf (volume fadeVolume : option Qc) :
  volume_wf (snd (construct volume fadeVolume)).
Proof.
  unfold construct. unfold bind.
  pose proof (volume_call_wf (CallSetVolume (default 1 volume)) created created_wf)
    as Hwf. simpl in Hwf.
  by destruct (setVolume (default 1 volume) created) as [[[]|e] s1].
Qed.

Lemma after_calls_wf (volume fadeVolume : option Qc) (cs : list VolumeCall) :
  volume_wf (after_calls volume fadeVolume cs).
Proof. apply volume_calls_wf, construct_wf. Qed.

Lemma Qc_nonneg_nonzero_pos (x : Qc) : 0 <= x -> x <> 0 -> 0 < x.
Proof.
  intros Hle Hne. destruct (Qcle_lt_or_eq _ _ Hle) as [|Heq]; [done|].
  by destruct Hne.
Qed.




(** X4: [setVolume], [mute] and [unmute] never write the fade gain: from
    any state and over any sequence of calls, [getFadeVolume] returns what
    it returned before. *)
Theorem calls_keep_fade_gain (cs : list VolumeCall) (s : t) :
  fst (getFadeVolume (volume_calls cs s)) = fst (getFadeVolume s).
Proof.
  unfold getFadeVolume, gets. simpl. f_equal.
  revert s. induction cs as [|c cs IH]; intros s; [done|].
  simpl. rewrite IH.
  destruct c as [v| |]; simpl.
  - unfold setVolume. destruct (decide (v < 0)); [done|]. run_monad.
    destruct (decide (v = volumeGain s)); [done|].
    by destruct (decide (v = 0)).
  - unfold mute, getVolume. run_monad. by destruct (decide (0 < volumeGain s)).
  - unfold unmute, getVolume. run_monad. by destruct (decide (volumeGain s = 0)).
Qed.


(** X6: the constructor throws InvalidArgument for a negative volume; for
    any other it returns with that volume (1 when none is given) and the
    given fade value (1 when none is given), with restore target 1 when the
    volume is 0, and it has dispatched one event when the volume is not 1
    and none when it is. *)
Theorem constructor_outcome (volume fadeVolume : option Qc) :
  (forall v, volume = Some v -> v < 0 ->
     construct volume fadeVolume = (Throw InvalidArgument, created)) /\
  ((forall v, volume = Some v -> 0 <= v) ->
     exists s,
       construct volume fadeVolume = (Return tt, s) /\
       getVolume s = (Return (default 1 volume), s) /\
       getFadeVolume s = (Return (default 1 fadeVolume), s) /\
       (default 1 volume = 0 -> volumeValueBeforeMute s = Some 1) /\
       length (eventDispatcher s)
         = if decide (default 1 volume = 1) then 0%nat else 1%nat).
Proof.
  split.
  - intros v -> Hv. unfold construct, bind. simpl. unfold setVolume.
    by destruct (decide (v < 0)).
  - intros Hv. assert (0 <= default 1 volume) as Hnn.
    { destruct volume as [v|]; [by apply Hv|done]. }
    unfold construct, bind.
    destruct (decide (default 1 volume = 1)) as [H1|H1].
    + rewrite H1. change (Q2Qc 1) with (volumeGain created) at 1.
      rewrite VolumeNodesFacts.setVolume_same by done.
      eexists. split; [done|]. unfold getVolume, getFadeVolume, gets. simpl.
      split; [done|]. split; [done|]. split; [|done].
      intros H0. by apply Q2Qc_eq_iff in H0.
    + rewrite VolumeNodesFacts.setVolume_changes by done.
      eexists. split; [done|]. unfold getVolume, getFadeVolume, gets. simpl.
      split; [done|]. split; [done|]. split; [|done].
      intros H0. by destruct (decide (default 1 volume = 0)).
Qed.

Lemma constructor_outcome_witness :
  construct (Some (- 1)) None = (Throw InvalidArgument, created) /\
  exists s,
    construct (Some 0) (Some 0) = (Return tt, s) /\
    getVolume s = (Return 0, s) /\
    getFadeVolume s = (Return 0, s) /\
    (0 = 0 -> volumeValueBeforeMute s = Some 1) /\
    length (eventDispatcher s) = 1%nat.
Proof.
  split.
  - apply (proj1 (constructor_outcome (Some (- 1)) None) (- 1)); done.
  - apply (proj2 (constructor_outcome (Some 0) (Some 0))).
    intros v [= <-]. done.
Defined.

End VolumeNodesExtra.

(** ** More on the mixer *)

Module ChannelsExtra.
Import Channels.
Import ChannelsFacts.

(** *** Lists *)

Lemma filter_bool_ext {A} (f g : A -> bool) (b : bool) (l : list A) :
  (forall x, f x = g x) ->
  filter (fun x => f x = b) l = filter (fun x => g x = b) l.
Proof.
  intros Hfg. induction l as [|x l IH]; [done|].
  rewrite !filter_cons, IH, (Hfg x). done.
Qed.

Lemma filter_none_selected {A} (l : list A) :
  filter (fun _ : A => false = false) l = l /\
  filter (fun _ : A => false = true) l = [].
Proof.
  induction l as [|x l [IH1 IH2]]; [done|].
  rewrite !filter_cons, IH1, IH2.
  destruct (decide (false = false)); [|done].
  by destruct (decide (false = true)).
Qed.

Lemma filter_sublist_length {A} (P : A -> Prop) `{!forall x, Decision (P x)}
    (l1 l2 : list A) :
  l1 `sublist_of` l2 -> (length (filter P l1) <= length (filter P l2))%nat.
Proof.
  induction 1 as [|x l1 l2 _ IH|x l1 l2 _ IH]; [done|..].
  - rewrite !filter_cons. destruct (decide (P x)); simpl; lia.
  - rewrite filter_cons. destruct (decide (P x)); simpl; lia.
Qed.

(** *** What [play] does *)

Lemma getOptionalChannelByNameOrInstance_cases (sel : option ChannelSelector)
    (m : Channels) :
  (exists oc, getOptionalChannelByNameOrInstance sel m = (Return oc, m)) \/
  (exists n, sel = Some (ByName n) /\ channelsByName m !! n = None /\
             getOptionalChannelByNameOrInstance sel m = (Throw ChannelNotFound, m)).
Proof.
  destruct sel as [[n|c]|]; [|left; by eexists..].
  unfold getOptionalChannelByNameOrInstance. run_monad.
  destruct (channelsByName m !! n) eqn:Hn; [left; by eexists|].
  right. by exists n.
Qed.

Lemma play_throws (name : string) (sel : option ChannelSelector)
    (o : PlaySoundOptions) (m : Channels) :
  (sampleManager m !! name = None ->
     play name sel o m = (Throw SampleNotFound, m)) /\
  (forall smp e, sampleManager m !! name = Some smp ->
     getOptionalChannelByNameOrInstance sel m = (Throw e, m) ->
     play name sel o m = (Throw e, m)).
Proof.
  split.
  - intros Hs. unfold play. run_monad. by rewrite Hs.
  - intros smp e Hs He. unfold play. unfold bind at 1, gets. rewrite Hs.
    unfold bind at 1. by rewrite He.
Qed.

(** A play request whose sound and channel resolve returns; this is the
    new playing sound and the state it leaves. *)
Lemma play_returns (name : string) (sel : option ChannelSelector)
    (o : PlaySoundOptions) (smp : Sample) (oc : option Channel) (m : Channels) :
  NoDup (ps_ref <$> playingSounds m) ->
  sampleManager m !! name = Some smp ->
  getOptionalChannelByNameOrInstance sel m = (Return oc, m) ->
  exists m',
    play name sel o m
      = (Return {| ps_ref := next_ref m; ps_sound := smp; ps_channel := oc;
                   ps_options := o |}, m') /\
    playingSounds m' =
      filter (fun q => stolen_by oc q = false) (playingSounds m)
        ++ [ {| ps_ref := next_ref m; ps_sound := smp; ps_channel := oc;
                ps_options := o |} ] /\
    events m' =
      events m ++
        replicate (length (filter (fun q => stolen_by oc q = true) (playingSounds m)))
          PLAYING_SOUNDS_UPDATED ++ [PLAYING_SOUNDS_UPDATED] /\
    channelsByName m' = channelsByName m /\
    sampleManager m' = sampleManager m /\
    volumeNodes m' = volumeNodes m /\
    next_ref m' = S (next_ref m).
Proof.
  intros Hnd Hsmp Hsel.
  set (m0 := {| channelsByName := channelsByName m; playingSounds := playingSounds m;
                sampleManager := sampleManager m; volumeNodes := volumeNodes m;
                events := events m; observed := observed m;
     next_ref := S (next_ref m) |}).
  set (p := {| ps_ref := next_ref m; ps_sound := smp; ps_channel := oc;
               ps_options := o |}).
  assert (exists m1,
            (if oc is Some c then
               match chan_type c with
               | monophonic => stopAll sel
               | polyphonic => ret tt
               end
             else ret tt) m0 = (Return tt, m1) /\
            playingSounds m1
              = filter (fun q => stolen_by oc q = false) (playingSounds m) /\
            events m1 =
              events m ++
                replicate
                  (length (filter (fun q => stolen_by oc q = true) (playingSounds m)))
                  PLAYING_SOUNDS_UPDATED /\
            registry_frame m0 m1) as (m1 & Hmid & Hl1 & He1 & Hfr1).
  { assert (forall oc', (forall q, stolen_by oc' q = false) ->
              exists m1, ret tt m0 = (Return tt, m1) /\
                playingSounds m1
                  = filter (fun q => stolen_by oc' q = false) (playingSounds m) /\
                events m1 =
                  events m ++
                    replicate
                      (length (filter (fun q => stolen_by oc' q = true)
                                 (playingSounds m)))
                      PLAYING_SOUNDS_UPDATED /\
                registry_frame m0 m1) as Hnone.
    { intros oc' Hoc'. exists m0. split; [done|].
      rewrite (filter_bool_ext (stolen_by oc') (fun _ => false) false) by done.
      rewrite (filter_bool_ext (stolen_by oc') (fun _ => false) true) by done.
      destruct (filter_none_selected (playingSounds m)) as [-> ->].
      simpl. rewrite app_nil_r. by repeat split. }
    destruct oc as [c|]; [|by apply Hnone].
    destruct (chan_type c) eqn:Hty;
      [|by apply Hnone; intros q; simpl; rewrite Hty].
    destruct (stopAll_resolved sel (Some c) m0) as (m1 & Hrun & Hl1 & He1 & Hfr1).
    { exact Hnd. }
    { by apply (getOptionalChannelByNameOrInstance_frame sel (Some c) m m0). }
    exists m1. split; [done|].
    rewrite (filter_bool_ext (stolen_by (Some c)) (plays_on c) false)
      by (by intros q; simpl; rewrite Hty).
    rewrite (filter_bool_ext (stolen_by (Some c)) (plays_on c) true)
      by (by intros q; simpl; rewrite Hty).
    split; [exact Hl1|]. split; [exact He1|]. exact Hfr1. }
  destruct Hfr1 as (Hc1 & Hs1 & Hv1 & Hn1).
  eexists. split; [|split; [|split; [|split; [|split; [|split]]]]].
  - unfold play. unfold bind at 1, gets. rewrite Hsmp.
    unfold bind at 1. rewrite Hsel.
    unfold bind at 1. change (new_PlayingSound smp oc o m) with (Return p, m0).
    cbv beta iota. unfold bind at 1. rewrite Hmid.
    unfold dispatchEvent. run_monad. reflexivity.
  - simpl. by rewrite Hl1.
  - simpl. by rewrite He1, <- app_assoc.
  - done.
  - done.
  - done.
  - done.
Qed.

(** X7: a play request on the main output or on a polyphonic channel stops
    nothing: it returns a new object for the sample and the channel, and
    [getPlayingSounds] then returns the sounds that were playing, in their
    order, with the new one last; one PLAYING_SOUNDS_UPDATED is
    dispatched. *)
Theorem play_without_stopping (name : string) (sel : option ChannelSelector)
    (o : PlaySoundOptions) (smp : Sample) (oc : option Channel) (m : Channels) :
  registry_wf m ->
  sampleManager m !! name = Some smp ->
  getOptionalChannelByNameOrInstance sel m = (Return oc, m) ->
  (forall c, oc = Some c -> chan_type c = polyphonic) ->
  exists p m',
    play name sel o m = (Return p, m') /\
    getPlayingSounds m' = (Return (playingSounds m ++ [p]), m') /\
    ps_sound p = smp /\ ps_channel p = oc /\
    (ps_ref p ∉ (ps_ref <$> playingSounds m)) /\
    events m' = events m ++ [PLAYING_SOUNDS_UPDATED].
Proof.
  intros [Hnd Hlt] Hsmp Hsel Hpoly.
  destruct (play_returns name sel o smp oc m Hnd Hsmp Hsel)
    as (m' & Hrun & Hl & He & _).
  assert (forall q, stolen_by oc q = false) as Hnone.
  { intros q. destruct oc as [c|]; [|done]. simpl. by rewrite (Hpoly c eq_refl). }
  rewrite (filter_bool_ext (stolen_by oc) (fun _ => false) false) in Hl by done.
  rewrite (filter_bool_ext (stolen_by oc) (fun _ => false) true) in He by done.
  destruct (filter_none_selected (playingSounds m)) as [Hall Hnil].
  rewrite Hall in Hl. rewrite Hnil in He. simpl in He.
  eexists. exists m'. split; [exact Hrun|].
  split; [by unfold getPlayingSounds, gets; rewrite Hl|].
  split; [done|]. split; [done|]. split; [|done].
  simpl. intros (q & Hq & Hin)%list_elem_of_fmap.
  rewrite Forall_forall in Hlt. specialize (Hlt q Hin). lia.
Qed.

Lemma play_without_stopping_witness :
  exists p m',
    play "a" (Some (ByName "music")) no_options session = (Return p, m') /\
    getPlayingSounds m' = (Return (playingSounds session ++ [p]), m') /\
    ps_sound p = sample_a /\ ps_channel p = Some music /\
    (ps_ref p ∉ (ps_ref <$> playingSounds session)) /\
    events m' = events session ++ [PLAYING_SOUNDS_UPDATED].
Proof.
  apply (play_without_stopping "a" (Some (ByName "music")) no_options
           sample_a (Some music) session).
  - apply run_calls_registry_wf, construct_registry_wf.
  - vm_compute. reflexivity.
  - vm_compute. reflexivity.
  - by intros c [= <-].
Defined.

Lemma construct_throws (volume fadeVolume : option Qc) (e : Error)
    (vn : VolumeNodes.t) :
  VolumeNodes.construct volume fadeVolume = (Throw e, vn) ->
  vn = VolumeNodes.created.
Proof.
  unfold VolumeNodes.construct, bind, VolumeNodes.setVolume.
  destruct (decide (default 1 volume < 0)); [by intros [= _ <-]|].
  run_monad.
  destruct (decide (default 1 volume = 1)); [done|].
  by destruct (decide (default 1 volume = 0)).
Qed.

Lemma perform_throws (c : Call) (e : Error) (m m' : Channels) :
  NoDup (ps_ref <$> playingSounds m) ->
  perform c m = (Throw e, m') ->
  channelsByName m' = channelsByName m /\
  playingSounds m' = playingSounds m /\
  events m' = events m /\
  sampleManager m' = sampleManager m /\
  volumeNodes m' = volumeNodes m.
Proof.
  intros Hnd. destruct c as [name o|name sel o|p|sel|p]; simpl.
  - unfold createChannel. destruct (decide (name = "")); [by intros [= _ <-]|].
    unfold bind at 1 2, gets.
    destruct (channelsByName m !! name); [by intros [= _ <-]|].
    unfold bind at 1. unfold new_Channel, fresh_ref. unfold bind at 1.
    destruct (VolumeNodes.construct (opt_volume o) None) as [[[]|e'] vn] eqn:Hvn.
    + match goal with |- context [forEach ?f ?l] =>
        destruct (forEach_dispatchEvent VOLUME_CHANGE l
          {| channelsByName := channelsByName m; playingSounds := playingSounds m;
             sampleManager := sampleManager m; volumeNodes := volumeNodes m;
             events := events m; observed := observed m;
     next_ref := S (next_ref m) |})
          as (m1 & Hrun & _)
      end.
      unfold bind at 1. rewrite Hrun. unfold dispatchEvent. by run_monad.
    + apply construct_throws in Hvn as ->. by intros [= _ <-].
  - unfold bind. destruct (sampleManager m !! name) as [smp|] eqn:Hs.
    + destruct (getOptionalChannelByNameOrInstance_cases sel m)
        as [[oc Hsel]|(n & _ & _ & Hsel)].
      * destruct (play_returns name sel o smp oc m Hnd Hs Hsel) as (m1 & -> & _).
        done.
      * rewrite (proj2 (play_throws name sel o m) smp _ Hs Hsel).
        by intros [= _ <-].
    + rewrite (proj1 (play_throws name sel o m) Hs). by intros [= _ <-].
  - unfold stop, removePlayingSound, dispatchEvent. run_monad.
    destruct (indexOf p (playingSounds m)); [done|]. by intros [= _ <-].
  - destruct (getOptionalChannelByNameOrInstance_cases sel m)
      as [[oc Hsel]|(n & _ & _ & Hsel)].
    + by destruct (stopAll_resolved sel oc m Hnd Hsel) as (m1 & -> & _).
    + unfold stopAll. unfold bind at 1. rewrite Hsel. by intros [= _ <-].
  - unfold removePlayingSound, dispatchEvent. run_monad.
    destruct (indexOf p (playingSounds m)); [done|]. by intros [= _ <-].
Qed.

(** X8: a call that throws has changed nothing that the program can see:
    after [createChannel], [play], [stop], [stopAll] or
    [removePlayingSound] has thrown, the channels, the registry, the
    dispatched events, the samples and the main volume are what they
    were. *)
Theorem throwing_call_changes_nothing (c : Call) (e : Error) (m m' : Channels) :
  NoDup (ps_ref <$> playingSounds m) ->
  perform c m = (Throw e, m') ->
  channelsByName m' = channelsByName m /\
  playingSounds m' = playingSounds m /\
  events m' = events m /\
  sampleManager m' = sampleManager m /\
  volumeNodes m' = volumeNodes m.
Proof. apply perform_throws. Qed.

Lemma throwing_call_changes_nothing_witness :
  channelsByName session = channelsByName session /\
  playingSounds session = playingSounds session /\
  events session = events session /\
  sampleManager session = sampleManager session /\
  volumeNodes session = volumeNodes session.
Proof.
  apply (throwing_call_changes_nothing
           (CallStopAll (Some (ByName "voice"))) ChannelNotFound session session).
  - vm_compute. apply NoDup_ListNoDup. repeat constructor; simpl; intuition lia.
  - vm_compute. reflexivity.
Defined.

(** *** Channels stay *)

Lemma new_Channel_fresh (name : string) (o : CreateChannelOptions)
    (c : Channel) (m m1 : Channels) :
  new_Channel name o m = (Return c, m1) ->
  chan_ref c = next_ref m /\ next_ref m1 = S (next_ref m) /\
  playingSounds m1 = playingSounds m.
Proof.
  unfold new_Channel, fresh_ref. unfold bind at 1.
  destruct (VolumeNodes.construct (opt_volume o) None) as [[[]|e] vn].
  - match goal with |- context [forEach ?f ?l] =>
      destruct (forEach_dispatchEvent VOLUME_CHANGE l
        {| channelsByName := channelsByName m; playingSounds := playingSounds m;
           sampleManager := sampleManager m; volumeNodes := volumeNodes m;
           events := events m; observed := observed m;
     next_ref := S (next_ref m) |})
        as (m2 & Hrun & Hl & _ & (_ & _ & _ & Hn))
    end.
    unfold bind, ret. rewrite Hrun. by intros [= <- <-].
  - unfold bind, throw.
    match goal with |- context [forEach ?f ?l ?m0] =>
      by destruct (forEach f l m0) as [[[]|e'] m2] end.
Qed.

Lemma createChannel_fresh (name : string) (o : CreateChannelOptions)
    (c : Channel) (m m' : Channels) :
  createChannel name o m = (Return c, m') ->
  chan_ref c = next_ref m /\ next_ref m' = S (next_ref m) /\
  playingSounds m' = playingSounds m.
Proof.
  unfold createChannel. destruct (decide (name = "")); [done|].
  unfold bind at 1, gets. destruct (channelsByName m !! name); [done|].
  unfold bind at 1.
  pose proof (fun c1 m1 => new_Channel_fresh name o c1 m m1) as Hnew.
  destruct (new_Channel name o m) as [[c1|e] m1]; [|done].
  destruct (Hnew c1 m1 eq_refl) as (Hr & Hn & Hl).
  unfold dispatchEvent. run_monad. by intros [= <- <-].
Qed.

(** X9: when [createChannel] returns a channel, [getChannel] with the name,
    which threw ChannelNotFound before, returns that channel, the name
    resolves to it as a selector, [getChannel] with any other name does
    what it did before, and the playing sounds are untouched. *)
Theorem createChannel_then_getChannel (name : string) (o : CreateChannelOptions)
    (c : Channel) (m m' : Channels) :
  createChannel name o m = (Return c, m') ->
  getChannel name m = (Throw ChannelNotFound, m) /\
  getChannel name m' = (Return c, m') /\
  getOptionalChannelByNameOrInstance (Some (ByName name)) m' = (Return (Some c), m') /\
  (forall n, n <> name -> fst (getChannel n m') = fst (getChannel n m)) /\
  playingSounds m' = playingSounds m.
Proof.
  intros Hrun. pose proof (createChannel_channels name o m) as H.
  rewrite Hrun in H. destruct H as (_ & Hnone & _ & _ & Hch).
  destruct (createChannel_fresh name o c m m' Hrun) as (_ & _ & Hl).
  unfold getChannel, getOptionalChannelByNameOrInstance, bind, gets, ret, throw.
  rewrite Hnone, Hch, lookup_insert_eq.
  split; [done|]. split; [done|]. split; [done|]. split; [|done].
  intros n Hn. rewrite lookup_insert_ne by done.
  by destruct (channelsByName m !! n).
Qed.

Lemma createChannel_then_getChannel_witness :
  exists c m',
    createChannel "voice" {| opt_type := None; opt_volume := None |} session
      = (Return c, m') /\
    getChannel "voice" session = (Throw ChannelNotFound, session) /\
    getChannel "voice" m' = (Return c, m').
Proof.
  destruct (createChannel "voice" {| opt_type := None; opt_volume := None |} session)
    as [[c|e] m'] eqn:Hrun.
  - exists c, m'. split; [reflexivity|].
    destruct (createChannel_then_getChannel _ _ _ _ _ Hrun) as (Hbefore & Hafter & _).
    split; [exact Hbefore|exact Hafter].
  - exfalso. vm_compute in Hrun. discriminate Hrun.
Defined.

(** X10: no call removes a channel or puts another in its place: a
    channel registered under a name is still registered under it after any
    sequence of calls. *)
Theorem channels_are_never_removed (cs : list Call) (name : string) (c : Channel)
    (m : Channels) :
  channelsByName m !! name = Some c ->
  channelsByName (run_calls cs m) !! name = Some c.
Proof.
  revert m. induction cs as [|call cs IH]; intros m Hc; [done|].
  simpl. apply IH. destruct call as [n o|n sel o|p|sel|p]; simpl.
  - pose proof (createChannel_channels n o m) as H.
    destruct (createChannel n o m) as [[c'|e] m']; simpl.
    + destruct H as (_ & Hnone & _ & _ & ->).
      rewrite lookup_insert_ne; [done|]. intros ->. congruence.
    + by rewrite H.
  - by rewrite play_channels.
  - unfold stop. by rewrite removePlayingSound_channels.
  - by rewrite stopAll_channels.
  - by rewrite removePlayingSound_channels.
Qed.

Lemma channels_are_never_removed_witness :
  channelsByName
    (run_calls [ CallStopAll None;
                 CallCreateChannel "fx" {| opt_type := None; opt_volume := None |};
                 CallPlay "a" (Some (ByName "fx")) no_options ] session) !! "fx"
    = Some fx.
Proof.
  apply (channels_are_never_removed _ "fx" fx session). vm_compute. reflexivity.
Defined.

(** *** One voice on a monophonic channel *)

Lemma filter_nothing {A} (P : A -> Prop) `{!forall x, Decision (P x)} (l : list A) :
  (forall x, x ∈ l -> ~ P x) -> filter P l = [].
Proof.
  induction l as [|x l IH]; intros Hl; [done|].
  rewrite filter_cons. destruct (decide (P x)) as [Hx|_].
  - destruct (Hl x); [by left|done].
  - apply IH. intros y Hy. apply Hl. by right.
Qed.

Lemma mixer_wf_shrinks (m m' : Channels) :
  mixer_wf m /\ one_voice m ->
  channelsByName m' = channelsByName m -> evolves m m' ->
  mixer_wf m' /\ one_voice m'.
Proof.
  intros [(Hreg & Ha & Hb & Hc) Hone] Hch [Hsub Hn].
  split; [split; [|split; [|split]]|].
  - by apply (registry_wf_evolves m).
  - intros name c. rewrite Hch. intros H. destruct (Ha name c H). split; [done|lia].
  - intros n1 n2 c1 c2. rewrite Hch. apply Hb.
  - intros p c Hp Hpc. rewrite Hch. apply (Hc p c); [|done].
    by eapply elem_of_sublist.
  - intros name c. rewrite Hch. intros H Hm.
    etrans; [by apply filter_sublist_length|by apply (Hone name c)].
Qed.

Lemma mixer_wf_createChannel (name : string) (o : CreateChannelOptions)
    (c : Channel) (m m' : Channels) :
  createChannel name o m = (Return c, m') ->
  mixer_wf m /\ one_voice m -> mixer_wf m' /\ one_voice m'.
Proof.
  intros Hrun [(Hreg & Ha & Hb & Hc) Hone].
  pose proof (createChannel_channels name o m) as H.
  rewrite Hrun in H. destruct H as (_ & Hnone & Hname & _ & Hch).
  destruct (createChannel_fresh name o c m m' Hrun) as (Hr & Hn & Hl).
  pose proof (createChannel_evolves name o m) as Hev. rewrite Hrun in Hev.
  assert (forall p, p ∈ playingSounds m -> plays_on c p <> true) as Hquiet.
  { intros p Hp Hon. unfold plays_on, is_channel in Hon.
    destruct (ps_channel p) as [c1|] eqn:Hpc; [|done].
    apply bool_decide_eq_true in Hon.
    destruct (Ha _ _ (Hc p c1 Hp Hpc)) as [_ Hlt]. lia. }
  split; [split; [|split; [|split]]|].
  - by apply (registry_wf_evolves m).
  - intros n c1. rewrite Hch, Hn. destruct (decide (name = n)) as [<-|Hne].
    + rewrite lookup_insert_eq. intros [= <-]. split; [done|lia].
    + rewrite lookup_insert_ne by done. intros H.
      destruct (Ha n c1 H). split; [done|lia].
  - intros n1 n2 c1 c2. rewrite Hch.
    destruct (decide (name = n1)) as [<-|Hne1];
      destruct (decide (name = n2)) as [<-|Hne2]; [done|..].
    + rewrite lookup_insert_eq, lookup_insert_ne by done.
      intros [= <-] H2 Heq. destruct (Ha _ _ H2) as [_ Hlt]. lia.
    + rewrite lookup_insert_eq, lookup_insert_ne by done.
      intros H1 [= <-] Heq. destruct (Ha _ _ H1) as [_ Hlt]. lia.
    + rewrite !lookup_insert_ne by done. apply Hb.
  - intros p c1. rewrite Hl, Hch. intros Hp Hpc.
    pose proof (Hc p c1 Hp Hpc) as Hc1.
    rewrite lookup_insert_ne; [done|]. intros Heq. congruence.
  - intros n c1. rewrite Hch, Hl. destruct (decide (name = n)) as [<-|Hne].
    + rewrite lookup_insert_eq. intros [= <-] _.
      rewrite filter_nothing by done. simpl. lia.
    + rewrite lookup_insert_ne by done. apply Hone.
Qed.

Lemma mixer_wf_play (name : string) (sel : option ChannelSelector)
    (o : PlaySoundOptions) (m : Channels) :
  (forall c, sel <> Some (ByInstance c)) ->
  mixer_wf m /\ one_voice m ->
  mixer_wf (snd (play name sel o m)) /\ one_voice (snd (play name sel o m)).
Proof.
  intros Hsel_name Hwf.
  assert (evolves m m) as Hrefl by apply evolves_refl.
  destruct (sampleManager m !! name) as [smp|] eqn:Hs;
    [|rewrite (proj1 (play_throws name sel o m) Hs);
      by apply (mixer_wf_shrinks m m)].
  destruct (getOptionalChannelByNameOrInstance_cases sel m)
    as [[oc Hsel]|(n & _ & _ & Hsel)];
    [|rewrite (proj2 (play_throws name sel o m) smp _ Hs Hsel);
      by apply (mixer_wf_shrinks m m)].
  destruct Hwf as [(Hreg & Ha & Hb & Hc) Hone].
  pose proof (play_registry_wf name sel o m Hreg) as Hreg'.
  destruct (play_returns name sel o smp oc m (proj1 Hreg) Hs Hsel)
    as (m' & Hrun & Hl & _ & Hch & _ & _ & Hn).
  rewrite Hrun in *. simpl in Hreg' |- *.
  assert (forall c, oc = Some c -> channelsByName m !! chan_name c = Some c) as Hoc.
  { intros c ->. destruct sel as [[n|c1]|].
    - unfold getOptionalChannelByNameOrInstance in Hsel. run_monad.
      destruct (channelsByName m !! n) as [c1|] eqn:Hn1; [|done].
      injection Hsel as ->. by destruct (Ha n c Hn1) as [-> _].
    - by destruct (Hsel_name c1).
    - done. }
  split; [split; [|split; [|split]]|].
  - done.
  - intros n c. rewrite Hch, Hn. intros H. destruct (Ha n c H). split; [done|lia].
  - intros n1 n2 c1 c2. rewrite Hch. apply Hb.
  - intros q c. rewrite Hl, Hch. intros [Hq|Hq]%elem_of_app Hqc.
    + apply list_elem_of_filter in Hq as [_ Hq]. by apply (Hc q c).
    + apply list_elem_of_singleton in Hq. subst q. simpl in Hqc. by apply Hoc.
  - intros n c. rewrite Hch, Hl. intros Hlook Hmono.
    rewrite filter_app, length_app.
    destruct (is_channel c oc) eqn:Hon.
    + destruct oc as [c1|]; [|done]. simpl in Hon.
      apply bool_decide_eq_true in Hon.
      assert (c1 = c) as ->.
      { pose proof (Hoc c1 eq_refl) as H1.
        pose proof (Hb _ _ _ _ H1 Hlook Hon) as Hnn. congruence. }
      rewrite (filter_bool_ext (stolen_by (Some c)) (plays_on c) false)
        by (by intros q; simpl; rewrite Hmono).
      rewrite (filter_true_filter_false (plays_on c)). simpl.
      rewrite filter_cons, filter_nil.
      destruct (decide (plays_on c _ = true)); simpl; lia.
    + rewrite (filter_cons _ _ []), filter_nil.
      destruct (decide (plays_on c _ = true)) as [Hp|_].
      { unfold plays_on in Hp. simpl in Hp. congruence. }
      simpl. rewrite Nat.add_0_r.
      etrans; [apply filter_sublist_length, sublist_filter; apply _|].
      by apply (Hone n c).
Qed.

Lemma mixer_wf_run_call (c : Call) (m : Channels) :
  plays_by_name c = true ->
  mixer_wf m /\ one_voice m ->
  mixer_wf (run_call c m) /\ one_voice (run_call c m).
Proof.
  intros Hby Hwf. destruct c as [name o|name sel o|p|sel|p]; simpl.
  - pose proof (createChannel_channels name o m) as Hch.
    pose proof (createChannel_evolves name o m) as Hev.
    destruct (createChannel name o m) as [[c|e] m'] eqn:Hrun.
    + by apply (mixer_wf_createChannel name o c m m').
    + by apply (mixer_wf_shrinks m m').
  - apply mixer_wf_play; [|done]. intros c ->. done.
  - apply (mixer_wf_shrinks m); [done|..].
    + apply removePlayingSound_channels.
    + apply removePlayingSound_evolves.
  - apply (mixer_wf_shrinks m); [done|..].
    + apply stopAll_channels.
    + apply stopAll_evolves.
  - apply (mixer_wf_shrinks m); [done|..].
    + apply removePlayingSound_channels.
    + apply removePlayingSound_evolves.
Qed.

Lemma construct_mixer_wf (sounds : gmap string Sample) :
  mixer_wf (construct sounds) /\ one_voice (construct sounds).
Proof.
  split; [split; [apply construct_registry_wf|]|]; simpl.
  - split; [|split].
    + intros name c. by rewrite lookup_empty.
    + intros n1 n2 c1 c2. by rewrite lookup_empty.
    + intros p c Hp. by apply elem_of_nil in Hp.
  - intros name c. simpl. by rewrite lookup_empty.
Qed.



(** *** Stopping *)

Lemma filter_everything {A} (P : A -> Prop) `{!forall x, Decision (P x)} (l : list A) :
  (forall x, x ∈ l -> P x) -> filter P l = l.
Proof.
  induction l as [|x l IH]; intros Hl; [done|].
  rewrite filter_cons. destruct (decide (P x)) as [_|Hx].
  - f_equal. apply IH. intros y Hy. apply Hl. by right.
  - destruct Hx. apply Hl. by left.
Qed.

(** X12: [stopAll] run a second time with the same selector does nothing
    more: the two calls in a row leave the state, and give the result, of
    one call (also when the selector makes both throw). *)
Theorem stopAll_twice_is_once (sel : option ChannelSelector) (m : Channels) :
  NoDup (ps_ref <$> playingSounds m) ->
  (stopAll sel ;; stopAll sel) m = stopAll sel m.
Proof.
  intros Hnd. unfold bind at 1.
  destruct (getOptionalChannelByNameOrInstance_cases sel m)
    as [[oc Hsel]|(n & _ & _ & Hsel)].
  - destruct (stopAll_resolved sel oc m Hnd Hsel) as (m1 & -> & Hl1 & _ & Hfr).
    destruct Hfr as (Hch & _).
    pose proof (getOptionalChannelByNameOrInstance_frame sel oc m m1 Hch Hsel) as Hsel1.
    unfold stopAll. unfold bind at 1. rewrite Hsel1. unfold bind, gets.
    rewrite Hl1, (filter_true_filter_false (to_stop oc)). done.
  - assert (stopAll sel m = (Throw ChannelNotFound, m)) as ->; [|done].
    unfold stopAll. unfold bind at 1. by rewrite Hsel.
Qed.

Lemma stopAll_twice_is_once_witness :
  (stopAll (Some (ByName "music")) ;; stopAll (Some (ByName "music"))) session
    = stopAll (Some (ByName "music")) session.
Proof.
  apply (stopAll_twice_is_once (Some (ByName "music")) session).
  vm_compute. apply NoDup_ListNoDup. repeat constructor; simpl; intuition lia.
Defined.

(** X13: [stop] on a playing sound of the registry takes that object out
    and nothing else: the others stay, in their order, the channels and
    the rest of the state are untouched, and one PLAYING_SOUNDS_UPDATED is
    dispatched. *)
Theorem stop_takes_out_one (p : PlayingSound) (m : Channels) :
  NoDup (ps_ref <$> playingSounds m) ->
  p ∈ playingSounds m ->
  exists m',
    stop p m = (Return tt, m') /\
    playingSounds m' = filter (fun q => ps_ref q <> ps_ref p) (playingSounds m) /\
    events m' = events m ++ [PLAYING_SOUNDS_UPDATED] /\
    registry_frame m m'.
Proof.
  intros Hnd (pre & l & Hm)%list_elem_of_split. rewrite Hm in Hnd.
  destruct (removePlayingSound_middle p pre l m Hm Hnd) as (m' & Hrun & Hl' & He & Hfr).
  exists m'. split; [done|]. split; [|done].
  rewrite Hl', Hm, filter_app, filter_cons.
  destruct (decide (ps_ref p <> ps_ref p)); [done|].
  rewrite fmap_app, fmap_cons in Hnd.
  apply NoDup_app in Hnd as (_ & Hdis & Hnd2).
  apply NoDup_cons in Hnd2 as [Hnl _].
  rewrite !filter_everything; [done|..].
  - intros q Hq Heq. apply Hnl. rewrite <- Heq. by apply list_elem_of_fmap_2.
  - intros q Hq Heq. apply (Hdis (ps_ref q)); [by apply list_elem_of_fmap_2|].
    rewrite Heq. by left.
Qed.

Lemma stop_takes_out_one_witness :
  exists m',
    stop fx_sound session = (Return tt, m') /\
    playingSounds m'
      = filter (fun q => ps_ref q <> ps_ref fx_sound) (playingSounds session) /\
    events m' = events session ++ [PLAYING_SOUNDS_UPDATED] /\
    registry_frame session m'.
Proof.
  apply (stop_takes_out_one fx_sound session).
  - vm_compute. apply NoDup_ListNoDup. repeat constructor; simpl; intuition lia.
  - vm_compute. left.
Defined.

(** *** The methods of a channel *)

Lemma stopAll_by_name_or_instance (n : string) (c : Channel) (m : Channels) :
  channelsByName m !! n = Some c ->
  stopAll (Some (ByName n)) m = stopAll (Some (ByInstance c)) m.
Proof.
  intros H. unfold stopAll, getOptionalChannelByNameOrInstance, bind, gets, ret.
  by rewrite H.
Qed.

Lemma play_by_name_or_instance (name n : string) (c : Channel)
    (o : PlaySoundOptions) (m : Channels) :
  channelsByName m !! n = Some c ->
  play name (Some (ByName n)) o m = play name (Some (ByInstance c)) o m.
Proof.
  intros H. unfold play, bind, gets.
  destruct (sampleManager m !! name) as [smp|]; [|done].
  assert (getOptionalChannelByNameOrInstance (Some (ByName n)) m
          = (Return (Some c), m)) as ->.
  { unfold getOptionalChannelByNameOrInstance, bind, gets, ret. by rewrite H. }
  unfold getOptionalChannelByNameOrInstance, new_PlayingSound, fresh_ref, bind, ret.
  cbv beta iota. destruct (chan_type c); [|done].
  match goal with |- context [stopAll (Some (ByName n)) ?m0] =>
    rewrite (stopAll_by_name_or_instance n c m0 H)
  end.
  done.
Qed.



(** *** Events *)

Lemma createChannel_events (name : string) (o : CreateChannelOptions)
    (c : Channel) (m m' : Channels) :
  createChannel name o m = (Return c, m') ->
  events m' =
    events m ++ (VOLUME_CHANGE <$> VolumeNodes.eventDispatcher (chan_volumeNodes c))
      ++ [CHANNELS_UPDATED].
Proof.
  unfold createChannel. destruct (decide (name = "")); [done|].
  unfold bind at 1, gets. destruct (channelsByName m !! name); [done|].
  unfold bind at 1. unfold new_Channel, fresh_ref. unfold bind at 1.
  destruct (VolumeNodes.construct (opt_volume o) None) as [[[]|e] vn].
  - match goal with |- context [forEach ?f ?l] =>
      destruct (forEach_dispatchEvent VOLUME_CHANGE l
        {| channelsByName := channelsByName m; playingSounds := playingSounds m;
           sampleManager := sampleManager m; volumeNodes := volumeNodes m;
           events := events m; observed := observed m;
     next_ref := S (next_ref m) |})
        as (m1 & Hrun & _ & He & _)
    end.
    unfold bind at 1. rewrite Hrun. unfold dispatchEvent. run_monad.
    intros [= <- <-]. simpl. by rewrite He, <- app_assoc.
  - unfold bind at 1, throw.
    match goal with |- context [forEach ?f ?l ?m0] =>
      by destruct (forEach f l m0) as [[[]|e'] m1] end.
Qed.

Lemma filter_none_true_all_false {A} (f : A -> bool) (l : list A) :
  filter (fun x => f x = true) l = [] -> filter (fun x => f x = false) l = l.
Proof.
  intros Hnil. apply filter_everything. intros x Hx.
  destruct (f x) eqn:Hfx; [|done].
  by destruct (filter_nil_not_elem_of _ _ x Hnil Hfx).
Qed.

(** X15: the registry and the channels do not change without notice:
    whatever a call of [createChannel], [play], [stop], [stopAll] or
    [removePlayingSound] does, the events it has dispatched hold
    PLAYING_SOUNDS_UPDATED when the registry is no longer what it was and
    CHANNELS_UPDATED when the channels are not. *)
Theorem changes_are_announced (c : Call) (m : Channels) :
  NoDup (ps_ref <$> playingSounds m) ->
  exists es,
    events (snd (perform c m)) = events m ++ es /\
    (playingSounds (snd (perform c m)) <> playingSounds m ->
       PLAYING_SOUNDS_UPDATED ∈ es) /\
    (channelsByName (snd (perform c m)) <> channelsByName m ->
       CHANNELS_UPDATED ∈ es).
Proof.
  intros Hnd. destruct (perform c m) as [[[]|e] m'] eqn:Hrun; simpl.
  2:{ destruct (perform_throws c e m m' Hnd Hrun) as (Hch & Hl & He & _).
      exists []. by rewrite app_nil_r. }
  destruct c as [name o|name sel o|p|sel|p]; simpl in Hrun.
  - unfold bind in Hrun.
    destruct (createChannel name o m) as [[c|e] m1] eqn:Hc; [|done].
    injection Hrun as <-.
    destruct (createChannel_fresh name o c m m1 Hc) as (_ & _ & Hl).
    eexists. split; [by apply (createChannel_events name o c m m1)|].
    split; [done|]. intros _. apply elem_of_app. right. by left.
  - unfold bind in Hrun.
    destruct (sampleManager m !! name) as [smp|] eqn:Hs;
      [|by rewrite (proj1 (play_throws name sel o m) Hs) in Hrun].
    destruct (getOptionalChannelByNameOrInstance_cases sel m)
      as [[oc Hsel]|(n & _ & _ & Hsel)];
      [|by rewrite (proj2 (play_throws name sel o m) smp _ Hs Hsel) in Hrun].
    destruct (play_returns name sel o smp oc m Hnd Hs Hsel)
      as (m1 & Hp & _ & He & Hch & _).
    rewrite Hp in Hrun. injection Hrun as <-.
    eexists. split; [exact He|]. split; [|done].
    intros _. apply elem_of_app. right. by left.
  - unfold stop, removePlayingSound, dispatchEvent in Hrun. run_monad.
    destruct (indexOf p (playingSounds m)); [|done].
    injection Hrun as <-. simpl. exists [PLAYING_SOUNDS_UPDATED].
    split; [done|]. split; [|done]. intros _. by left.
  - destruct (getOptionalChannelByNameOrInstance_cases sel m)
      as [[oc Hsel]|(n & _ & _ & Hsel)].
    + destruct (stopAll_resolved sel oc m Hnd Hsel)
        as (m1 & Hs & Hl & He & (Hch & _)).
      rewrite Hs in Hrun. injection Hrun as <-.
      eexists. split; [exact He|]. split; [|done].
      intros Hne.
      destruct (filter (fun p => to_stop oc p = true) (playingSounds m))
        as [|q l] eqn:Hf.
      * destruct Hne. rewrite Hl. by apply filter_none_true_all_false.
      * by left.
    + unfold stopAll in Hrun. unfold bind at 1 in Hrun. by rewrite Hsel in Hrun.
  - unfold removePlayingSound, dispatchEvent in Hrun. run_monad.
    destruct (indexOf p (playingSounds m)); [|done].
    injection Hrun as <-. simpl. exists [PLAYING_SOUNDS_UPDATED].
    split; [done|]. split; [|done]. intros _. by left.
Qed.

Lemma changes_are_announced_witness :
  exists es,
    events (snd (perform (CallStopAll (Some (ByName "fx"))) session))
      = events session ++ es /\
    (playingSounds (snd (perform (CallStopAll (Some (ByName "fx"))) session))
       <> playingSounds session -> PLAYING_SOUNDS_UPDATED ∈ es) /\
    (channelsByName (snd (perform (CallStopAll (Some (ByName "fx"))) session))
       <> channelsByName session -> CHANNELS_UPDATED ∈ es).
Proof.
  apply (changes_are_announced (CallStopAll (Some (ByName "fx"))) session).
  vm_compute. apply NoDup_ListNoDup. repeat constructor; simpl; intuition lia.
Defined.

End ChannelsExtra.

(** ** What listeners see while a call runs *)

Module ChannelsObserved.
Import Channels.
Import ChannelsFacts.

(** Each removal shows the listeners a registry that is part of the one
    before it. *)
Lemma removePlayingSound_observed (p : PlayingSound) (m : Channels) :
  exists snaps,
    observed (snd (removePlayingSound p m)) = observed m ++ snaps /\
    Forall (fun snap => snap `sublist_of` playingSounds m) snaps.
Proof.
  unfold removePlayingSound, dispatchEvent. run_monad.
  destruct (indexOf p (playingSounds m)) as [i|]; simpl.
  - exists [delete i (playingSounds m)]. split; [done|].
    apply Forall_singleton, sublist_delete.
  - exists []. by rewrite app_nil_r.
Qed.

Lemma forEach_stop_observed (l : list PlayingSound) (m : Channels) :
  exists snaps,
    observed (snd (forEach stop l m)) = observed m ++ snaps /\
    Forall (fun snap => snap `sublist_of` playingSounds m) snaps.
Proof.
  revert m. induction l as [|x l IH]; intros m.
  { exists []. simpl. by rewrite app_nil_r. }
  simpl. unfold bind. unfold stop at 1.
  destruct (removePlayingSound_observed x m) as (s1 & Ho1 & Hs1).
  pose proof (removePlayingSound_evolves x m) as [Hsub _].
  destruct (removePlayingSound x m) as [[[]|e] m1]; simpl in *.
  - destruct (IH m1) as (s2 & Ho2 & Hs2).
    exists (s1 ++ s2). split; [by rewrite Ho2, Ho1, app_assoc|].
    apply Forall_app. split; [done|].
    eapply Forall_impl; [exact Hs2|]. intros snap Hsnap.
    by trans (playingSounds m1).
  - by exists s1.
Qed.

Lemma stopAll_observed (sel : option ChannelSelector) (m : Channels) :
  exists snaps,
    observed (snd (stopAll sel m)) = observed m ++ snaps /\
    Forall (fun snap => snap `sublist_of` playingSounds m) snaps.
Proof.
  unfold stopAll. unfold bind at 1.
  pose proof (getOptionalChannelByNameOrInstance_pure sel m) as Hp.
  destruct (getOptionalChannelByNameOrInstance sel m) as [[oc|e] m1];
    simpl in Hp; subst m1.
  - unfold bind, gets. apply forEach_stop_observed.
  - exists []. simpl. by rewrite app_nil_r.
Qed.

Lemma is_channel_true (c : Channel) (oc : option Channel) :
  is_channel c oc = true <-> exists c', oc = Some c' /\ chan_ref c' = chan_ref c.
Proof.
  destruct oc as [c1|]; simpl.
  - rewrite bool_decide_eq_true. split.
    + intros H. by exists c1.
    + by intros (c' & [= <-] & H).
  - split; [done|]. by intros (c' & H & _).
Qed.

Lemma filter_true_false_length {A} (f : A -> bool) (l : list A) :
  (length (filter (fun x => f x = true) l)
   + length (filter (fun x => f x = false) l) = length l)%nat.
Proof.
  induction l as [|x l IH]; [done|].
  rewrite !filter_cons. destruct (f x).
  - destruct (decide (true = true)); [|done].
    destruct (decide (true = false)); [done|]. simpl. lia.
  - destruct (decide (false = true)); [done|].
    destruct (decide (false = false)); [|done]. simpl. lia.
Qed.

(** C8: in every state of the registry, [stopAll] with a selector that
    resolves to the channel [c] returns; a playing sound is in the registry
    afterwards exactly when it was there before and its channel is not the
    object [c] (it has no channel, or one with another reference); those
    that stay keep their order; one PLAYING_SOUNDS_UPDATED is dispatched
    for each sound that went. [stopAll] with no selector leaves the
    registry empty. The channels, the samples, the main volume and the
    references are untouched by both. *)
Theorem stopAll_scoped_to_channel (sel : ChannelSelector) (c : Channel)
    (m : Channels) :
  NoDup (ps_ref <$> playingSounds m) ->
  getOptionalChannelByNameOrInstance (Some sel) m = (Return (Some c), m) ->
  (exists m',
     stopAll (Some sel) m = (Return tt, m') /\
     (forall p, p ∈ playingSounds m' <->
        p ∈ playingSounds m /\
        ~ (exists c', ps_channel p = Some c' /\ chan_ref c' = chan_ref c)) /\
     playingSounds m' `sublist_of` playingSounds m /\
     events m' =
       events m ++
         replicate (length (playingSounds m) - length (playingSounds m'))
           PLAYING_SOUNDS_UPDATED /\
     channelsByName m' = channelsByName m /\
     sampleManager m' = sampleManager m /\
     volumeNodes m' = volumeNodes m /\
     next_ref m' = next_ref m) /\
  (exists m',
     stopAll None m = (Return tt, m') /\
     playingSounds m' = [] /\
     channelsByName m' = channelsByName m /\
     sampleManager m' = sampleManager m /\
     volumeNodes m' = volumeNodes m /\
     next_ref m' = next_ref m).
Proof.
  intros Hnd Hsel. split.
  - destruct (stopAll_resolved (Some sel) (Some c) m Hnd Hsel)
      as (m' & Hrun & Hl' & He' & Hfr).
    exists m'. split; [done|]. split; [|split; [|split; [|exact Hfr]]].
    + intros p. rewrite Hl', list_elem_of_filter. simpl.
      rewrite <- is_channel_true. destruct (is_channel c (ps_channel p)).
      * split; [by intros [? _]|]. intros [_ H]. by destruct H.
      * split; [by intros [_ ?]|]. by intros [? _].
    + rewrite Hl'. apply sublist_filter.
    + rewrite He', Hl'. do 2 f_equal.
      pose proof (filter_true_false_length (to_stop (Some c)) (playingSounds m)).
      lia.
  - destruct (stopAll_resolved None None m Hnd eq_refl)
      as (m' & Hrun & Hl' & _ & Hfr).
    exists m'. split; [done|]. split; [|exact Hfr].
    rewrite Hl'. clear. induction (playingSounds m) as [|x l IH]; [done|].
    rewrite filter_cons. simpl. by destruct (decide (true = false)).
Qed.

Lemma stopAll_scoped_to_channel_witness :
  playingSounds session = [fx_sound; music_sound; main_sound] /\
  playingSounds (snd (stopAll (Some (ByName "fx")) session))
    = [music_sound; main_sound] /\
  playingSounds (snd (stopAll (Some (ByInstance music)) session))
    = [fx_sound; main_sound] /\
  playingSounds (snd (stopAll None session)) = [] /\
  (exists m',
     stopAll (Some (ByName "fx")) session = (Return tt, m') /\
     (forall p, p ∈ playingSounds m' <->
        p ∈ playingSounds session /\
        ~ (exists c', ps_channel p = Some c' /\ chan_ref c' = chan_ref fx)) /\
     playingSounds m' `sublist_of` playingSounds session /\
     events m' =
       events session ++
         replicate (length (playingSounds session) - length (playingSounds m'))
           PLAYING_SOUNDS_UPDATED /\
     channelsByName m' = channelsByName session /\
     sampleManager m' = sampleManager session /\
     volumeNodes m' = volumeNodes session /\
     next_ref m' = next_ref session).
Proof.
  split; [vm_compute; reflexivity|].
  split; [vm_compute; reflexivity|].
  split; [vm_compute; reflexivity|].
  split; [vm_compute; reflexivity|].
  apply (proj1 (stopAll_scoped_to_channel (ByName "fx") fx session
                  ltac:(vm_compute; apply NoDup_ListNoDup;
                        repeat constructor; simpl; intuition lia)
                  ltac:(vm_compute; reflexivity))).
Defined.



End ChannelsObserved.
